(** * tchannel-go: connection health checks (health.go)

    A shallow embedding of [HealthCheckOptions], of the [healthCheck]
    goroutine of a [Connection] and of [stophealthCheck], together with the
    properties of the liveness monitor that the specification states.

    Conventions.
    - [time.Duration] is an [int64] count of nanoseconds and Go's [int] is
      taken at 64 bits; both are carried as [Z], and the one arithmetic
      operation of the file ([consecutiveFailures++]) has its wrap-around
      written out.
    - The goroutine interacts with its environment at two places: the
      [select] over the ticker and the quit channel, and the call of
      [c.ping].  A run is driven by the finite list of what the environment
      answered so far ([event]); when the list is exhausted the goroutine is
      blocked in [select].
    - Everything the goroutine does to the outside world is recorded, in
      program order, as a list of [call]s. *)

From Stdlib Require Import ZArith List String Bool Lia.
Import ListNotations.
Local Open Scope string_scope.
Local Open Scope list_scope.
Local Open Scope Z_scope.

(** ** Constants and configuration *)

(** [time.Second], in nanoseconds. *)
Definition Second : Z := 1000000000.

Definition _defaultHealthCheckTimeout : Z := Second.
Definition _defaultHealthCheckFailuresToClose : Z := 5.

(** Width of Go's [int] and the values it can hold. *)
Definition intSize : Z := 64.
Definition minInt : Z := - 2 ^ (intSize - 1).
Definition maxInt : Z := 2 ^ (intSize - 1) - 1.

(** Two's complement wrap-around of an [int] result. *)
Definition wrapInt (z : Z) : Z :=
  (z - minInt) mod 2 ^ intSize + minInt.

Definition isInt (z : Z) : Prop := minInt <= z <= maxInt.

Record HealthCheckOptions : Type := mkHealthCheckOptions {
  Interval : Z;          (* time.Duration *)
  Timeout : Z;           (* time.Duration *)
  FailuresToClose : Z    (* int *)
}.

Definition setTimeout (hco : HealthCheckOptions) (d : Z) : HealthCheckOptions :=
  {| Interval := Interval hco; Timeout := d;
     FailuresToClose := FailuresToClose hco |}.

Definition setFailuresToClose (hco : HealthCheckOptions) (n : Z)
  : HealthCheckOptions :=
  {| Interval := Interval hco; Timeout := Timeout hco;
     FailuresToClose := n |}.

(** [func (hco HealthCheckOptions) enabled() bool] *)
Definition enabled (hco : HealthCheckOptions) : bool :=
  0 <? Interval hco.

(** [func (hco HealthCheckOptions) withDefaults() HealthCheckOptions].
    The receiver is passed by value: the assignments below update the
    callee's copy [hco], which is what the function returns. *)
Definition withDefaults (hco : HealthCheckOptions) : HealthCheckOptions :=
  let hco :=
    if Timeout hco =? 0
    then setTimeout hco _defaultHealthCheckTimeout
    else hco in
  let hco :=
    if FailuresToClose hco =? 0
    then setFailuresToClose hco _defaultHealthCheckFailuresToClose
    else hco in
  hco.

(** A method call [v.withDefaults()] from a caller holding the options in
    a variable [v]: the callee works on a copy, so the caller's store keeps
    [v] and receives the result next to it. *)
Definition callWithDefaults (v : HealthCheckOptions)
  : HealthCheckOptions * HealthCheckOptions :=
  let receiver := v in
  (v, withDefaults receiver).

(** ** Collaborators of the monitor *)

(** Modelled from the spec: the values of Go's [error] interface that reach
    this file.  [ErrInvalidConnectionState] is a package-level error value
    declared in another file of the package ("the connection is already
    invalid/closed"); every other probe failure (timeout, transport error)
    is a [NewError] with its message.  [Errorf] is [fmt.Errorf] with one
    [%v] argument, kept symbolic. *)
Inductive error : Type :=
| ErrInvalidConnectionState
| NewError (msg : string)
| Errorf (format : string) (arg : error).

(** [err1 == err2] on error values. *)
Fixpoint error_eqb (e1 e2 : error) : bool :=
  match e1, e2 with
  | ErrInvalidConnectionState, ErrInvalidConnectionState => true
  | NewError m1, NewError m2 => String.eqb m1 m2
  | Errorf f1 a1, Errorf f2 a2 => String.eqb f1 f2 && error_eqb a1 a2
  | _, _ => false
  end.

(** Modelled from the spec: [LogField] is a key with a value, [ErrField]
    the field that attaches an error; both are declared in the logging file
    of the package. *)
Inductive LogField : Type :=
| mkLogField (Key Value : string)
| ErrField (err : error).

Definition LogFields : Type := list LogField.

(** The calls the two functions make, as they appear in a trace.  A context
    made by [context.WithTimeout] is named by a number, the count of the
    contexts made before it; its [cancel] function carries the same number.
    The methods of [Connection] called here ([ping], [connectionError],
    [close], [log.Debug]) are declared in other files of the package: a
    call of one is recorded with its arguments, and what [ping] returns is
    an answer of the environment. *)
Inductive call : Type :=
| NewTicker (d : Z)                              (* time.NewTicker(d) *)
| TickerStop                                     (* ticker.Stop() *)
| WithTimeout (ctx : nat) (d : Z)                (* context.WithTimeout(context.Background(), d) *)
| Cancel (ctx : nat)                             (* cancel() *)
| Ping (ctx : nat)                               (* c.ping(ctx) *)
| ConnectionError (site : string) (err : error)  (* c.connectionError(site, err) *)
| ConnClose (fields : LogFields)                 (* c.close(fields...) *)
| LogDebug (msg : string)                        (* c.log.Debug(msg) *)
| ChanClose.                                     (* close(c.healthCheckQuit) *)

Definition trace : Type := list call.

(** What the environment answers to one pass through the loop: either the
    quit channel is chosen by [select], or the ticker is and the ping that
    follows returns [pong] ([None] is Go's [nil]). *)
Inductive event : Type :=
| Tick (pong : option error)
| Quit.

(** ** The goroutine's frame and its monad *)

(** The local state of one activation of [healthCheck]: the counter, the
    stack of deferred calls (most recent first, the order in which they run
    at return) and the number of contexts made so far. *)
Record frame : Type := mkFrame {
  consecutiveFailures : Z;
  deferred : list call;
  contexts : nat
}.

(** State over [frame], output of [call]s. *)
Definition M (A : Type) : Type := frame -> trace * frame * A.

Definition ret {A : Type} (a : A) : M A := fun f => ([], f, a).

Definition bind {A B : Type} (m : M A) (k : A -> M B) : M B :=
  fun f =>
    let '(t1, f1, a) := m f in
    let '(t2, f2, b) := k a f1 in
    (t1 ++ t2, f2, b).

Declare Scope hc_scope.
Delimit Scope hc_scope with hc.
Notation "x <- m ;; k" := (bind m (fun x => k))
  (at level 61, m at next level, right associativity) : hc_scope.
Notation "m ;; k" := (bind m (fun _ => k))
  (at level 61, right associativity) : hc_scope.
Local Open Scope hc_scope.

(** Perform a call on the outside world. *)
Definition emit (c : call) : M unit := fun f => ([c], f, tt).

(** [defer c]: push on the deferred stack. *)
Definition defer (c : call) : M unit :=
  fun f =>
    ([], {| consecutiveFailures := consecutiveFailures f;
            deferred := c :: deferred f;
            contexts := contexts f |}, tt).

Definition getFailures : M Z := fun f => ([], f, consecutiveFailures f).

Definition setFailures (n : Z) : M unit :=
  fun f =>
    ([], {| consecutiveFailures := n;
            deferred := deferred f;
            contexts := contexts f |}, tt).

(** [ctx, cancel := context.WithTimeout(context.Background(), d)] *)
Definition withTimeout (d : Z) : M nat :=
  fun f =>
    ([WithTimeout (contexts f) d],
     {| consecutiveFailures := consecutiveFailures f;
        deferred := deferred f;
        contexts := S (contexts f) |},
     contexts f).

(** [err := c.ping(ctx)], answered by the environment. *)
Definition ping (ctx : nat) (pong : option error) : M (option error) :=
  emit (Ping ctx) ;; ret pong.

(** ** healthCheck *)

Inductive control : Type :=
| Continue     (* back to the head of the [for] *)
| Return.      (* [return] *)

(** One pass through the body of the [for] loop. *)
Definition iteration (opts : HealthCheckOptions) (e : event) : M control :=
  match e with
  | Quit => ret Return
  | Tick pong =>
      ctx <- withTimeout (Timeout opts) ;;
      defer (Cancel ctx) ;;
      err <- ping ctx pong ;;
      match err with
      | None =>
          setFailures 0 ;;
          ret Continue
      | Some err =>
          if error_eqb err ErrInvalidConnectionState then ret Return
          else
            emit (ConnectionError "healthCheck"
                    (Errorf "healthCheck failed: %v" err)) ;;
            n <- getFailures ;;
            setFailures (wrapInt (n + 1)) ;;
            n <- getFailures ;;
            if FailuresToClose opts <=? n then
              emit (ConnClose [mkLogField "reason" "health check failure";
                               ErrField err]) ;;
              ret Return
            else ret Continue
      end
  end.

(** The [for] loop over the answers of the environment.  The result is
    [true] when the function has reached a [return], [false] when the
    answers are used up and the goroutine is blocked in [select]. *)
Fixpoint loop (opts : HealthCheckOptions) (events : list event) : M bool :=
  match events with
  | [] => ret false
  | e :: events' =>
      k <- iteration opts e ;;
      match k with
      | Return => ret true
      | Continue => loop opts events'
      end
  end.

Record ConnectionOptions : Type := mkConnectionOptions {
  HealthChecks : HealthCheckOptions
}.

(** The fields of [Connection] the two functions use.  [healthCheckQuit]
    is a channel that is never sent on, only closed: its state is whether
    it has been closed. *)
Record Connection : Type := mkConnection {
  opts : ConnectionOptions;
  healthCheckStopped : bool;      (* atomic.Bool *)
  healthCheckQuit : bool          (* chan struct{}: closed? *)
}.

Inductive outcome : Type :=
| Waiting (f : frame)     (* blocked in [select], the goroutine is alive *)
| Returned (f : frame)    (* returned; [f] is the frame at the [return] *)
| Panicked.

Definition frame0 : frame :=
  {| consecutiveFailures := 0; deferred := []; contexts := 0 |}.

(** [func (c *Connection) healthCheck(connID uint32)].
    [time.NewTicker] panics unless its argument is positive.  At [return]
    the deferred calls run, last deferred first.  [connID] is accepted and
    not read, as in the source. *)
Definition healthCheck (c : Connection) (connID : Z) (events : list event)
  : trace * outcome :=
  let opts := HealthChecks (opts c) in
  if Interval opts <=? 0 then ([NewTicker (Interval opts)], Panicked)
  else
    let '(t, f, returned) :=
      (emit (NewTicker (Interval opts)) ;;
       defer TickerStop ;;
       loop opts events) frame0 in
    if returned then (t ++ deferred f, Returned f)
    else (t, Waiting f).

(** ** stophealthCheck *)

Definition setStopped (c : Connection) (b : bool) : Connection :=
  {| opts := opts c; healthCheckStopped := b;
     healthCheckQuit := healthCheckQuit c |}.

Definition setQuitClosed (c : Connection) : Connection :=
  {| opts := opts c; healthCheckStopped := healthCheckStopped c;
     healthCheckQuit := true |}.

(** [c.healthCheckStopped.Swap(new)]: store [new], return the old value,
    in one atomic step. *)
Definition Swap (new : bool) (c : Connection) : bool * Connection :=
  (healthCheckStopped c, setStopped c new).

(** [close(c.healthCheckQuit)]; closing a closed channel panics ([None]). *)
Definition closeQuit (c : Connection) : option Connection :=
  if healthCheckQuit c then None else Some (setQuitClosed c).

(** [func (c *Connection) stophealthCheck()]; [None] is a panic. *)
Definition stophealthCheck (c : Connection) : trace * option Connection :=
  let '(old, c) := Swap true c in
  if old then ([], Some c)
  else
    ([LogDebug "Stopping health checks."; ChanClose], closeQuit c).

(** [n] calls of [stophealthCheck], one after the other. *)
Fixpoint stopTimes (n : nat) (c : Connection) : trace * option Connection :=
  match n with
  | O => ([], Some c)
  | S n' =>
      match stophealthCheck c with
      | (t, Some c') =>
          let '(t', r) := stopTimes n' c' in (t ++ t', r)
      | (t, None) => (t, None)
      end
  end.

(** *** Concurrent callers

    A caller of [stophealthCheck] is at one of four program points; the
    steps between them are the atomic actions of the function. *)
Inductive pc : Type :=
| AtSwap      (* before [c.healthCheckStopped.Swap(true)] *)
| AtDebug     (* before [c.log.Debug] *)
| AtClose     (* before [close(c.healthCheckQuit)] *)
| AtEnd.      (* returned *)

(** The connection shared by the callers, what they did to the outside
    world so far, and whether one of them panicked. *)
Record world : Type := mkWorld {
  conn : Connection;
  out : trace;
  panicked : bool
}.

(** One atomic step of a caller that is at [p]. *)
Definition stopStep (p : pc) (w : world) : pc * world :=
  match p with
  | AtSwap =>
      let '(old, c) := Swap true (conn w) in
      (if old then AtEnd else AtDebug,
       {| conn := c; out := out w; panicked := panicked w |})
  | AtDebug =>
      (AtClose,
       {| conn := conn w;
          out := out w ++ [LogDebug "Stopping health checks."];
          panicked := panicked w |})
  | AtClose =>
      match closeQuit (conn w) with
      | Some c =>
          (AtEnd,
           {| conn := c; out := out w ++ [ChanClose];
              panicked := panicked w |})
      | None =>
          (AtEnd,
           {| conn := conn w; out := out w ++ [ChanClose];
              panicked := true |})
      end
  | AtEnd => (AtEnd, w)
  end.

Fixpoint setNth {A : Type} (i : nat) (x : A) (l : list A) {struct l}
  : list A :=
  match l, i with
  | [], _ => []
  | _ :: l', O => x :: l'
  | y :: l', S i' => y :: setNth i' x l'
  end.

(** A schedule names, step after step, the caller that moves next.  A
    panic ends the program. *)
Fixpoint runSchedule (sched : list nat) (ps : list pc) (w : world)
  : list pc * world :=
  match sched with
  | [] => (ps, w)
  | i :: sched' =>
      if panicked w then (ps, w)
      else
        match nth_error ps i with
        | None => runSchedule sched' ps w
        | Some p =>
            let '(p', w') := stopStep p w in
            runSchedule sched' (setNth i p' ps) w'
        end
  end.

Definition world0 (c : Connection) : world :=
  {| conn := c; out := []; panicked := false |}.

(** ** Observations on traces *)

Definition isConnClose (c : call) : bool :=
  match c with ConnClose _ => true | _ => false end.

Definition isConnectionError (c : call) : bool :=
  match c with ConnectionError _ _ => true | _ => false end.

Definition isChanClose (c : call) : bool :=
  match c with ChanClose => true | _ => false end.

Definition isTickerStop (c : call) : bool :=
  match c with TickerStop => true | _ => false end.

Definition isNewTicker (c : call) : bool :=
  match c with NewTicker _ => true | _ => false end.

Definition isPing (c : call) : bool :=
  match c with Ping _ => true | _ => false end.

Definition isWithTimeout (c : call) : bool :=
  match c with WithTimeout _ _ => true | _ => false end.

Definition isCancel (c : call) : bool :=
  match c with Cancel _ => true | _ => false end.

(** A call that releases a resource: what runs from the deferred stack. *)
Definition isRelease (c : call) : bool := isCancel c || isTickerStop c.

Definition count (p : call -> bool) (t : trace) : nat :=
  List.length (filter p t).

(** The contexts of [t] whose [cancel] has not been called by the end of
    [t], starting from the contexts [live]. *)
Fixpoint unreleasedFrom (live : list nat) (t : trace) : list nat :=
  match t with
  | [] => live
  | WithTimeout ctx _ :: t' => unreleasedFrom (ctx :: live) t'
  | Cancel ctx :: t' => unreleasedFrom (remove Nat.eq_dec ctx live) t'
  | _ :: t' => unreleasedFrom live t'
  end.

Definition unreleased (t : trace) : list nat := unreleasedFrom [] t.

(** Whether the ticker made in [t] is still running at the end of [t]. *)
Definition tickerRunning (t : trace) : bool :=
  fold_left
    (fun running c =>
       match c with
       | NewTicker _ => true
       | TickerStop => false
       | _ => running
       end) t false.

(** ** Failure streaks, as the specification words them *)

(** A probe outcome that counts as a failure: an error other than the
    sentinel. *)
Definition isFailure (o : option error) : bool :=
  match o with
  | None => false
  | Some err => negb (error_eqb err ErrInvalidConnectionState)
  end.

Definition isSentinel (o : option error) : bool :=
  match o with
  | None => false
  | Some err => error_eqb err ErrInvalidConnectionState
  end.

Fixpoint leadingRun {A : Type} (p : A -> bool) (l : list A) : nat :=
  match l with
  | [] => O
  | x :: l' => if p x then S (leadingRun p l') else O
  end.

(** The length of the trailing run of failures of [outs]: the failures
    since the most recent success, or since the start. *)
Definition trailingFailures (outs : list (option error)) : nat :=
  leadingRun isFailure (rev outs).

(** The counter after each of the probes of [outs], read off the runs of
    [healthCheck] on the prefixes of [outs]. *)
Definition counterAfter (c : Connection) (connID : Z)
  (outs : list (option error)) (k : nat) : option Z :=
  match snd (healthCheck c connID (map Tick (firstn k outs))) with
  | Waiting f | Returned f => Some (consecutiveFailures f)
  | Panicked => None
  end.

Definition counterPath (c : Connection) (connID : Z)
  (outs : list (option error)) : list (option Z) :=
  map (counterAfter c connID outs) (seq 1 (List.length outs)).

(** ** The pieces of one pass, named for the statements below *)

(** The frame after the context of a pass has been made and its [cancel]
    deferred. *)
Definition probing (f : frame) : frame :=
  {| consecutiveFailures := consecutiveFailures f;
     deferred := Cancel (contexts f) :: deferred f;
     contexts := S (contexts f) |}.

Definition withFailures (n : Z) (f : frame) : frame :=
  {| consecutiveFailures := n;
     deferred := deferred f;
     contexts := contexts f |}.

(** The two calls that open every probe. *)
Definition probeCalls (hco : HealthCheckOptions) (f : frame) : trace :=
  [WithTimeout (contexts f) (Timeout hco); Ping (contexts f)].

(** The report of a failed probe to [c.connectionError]. *)
Definition reportCall (err : error) : call :=
  ConnectionError "healthCheck" (Errorf "healthCheck failed: %v" err).

(** The close of the connection on a failed probe. *)
Definition closeCall (err : error) : call :=
  ConnClose [mkLogField "reason" "health check failure"; ErrField err].

(** The counter after a probe that answered [o], from the counter [n]
    before it. *)
Definition bump (o : option error) (n : Z) : Z :=
  match o with
  | None => 0
  | Some _ => wrapInt (n + 1)
  end.

(** The report a probe that answered [o] gives rise to. *)
Definition reportOf (o : option error) : trace :=
  match o with
  | None => []
  | Some err => [reportCall err]
  end.

(** The streak after [outs], starting from a streak of [k]: one more for a
    failure, back to zero otherwise. *)
Definition streakFrom (k : Z) (outs : list (option error)) : Z :=
  fold_left (fun k o => if isFailure o then k + 1 else 0) outs k.

(** The frame [healthCheck] enters its loop with. *)
Definition frame1 : frame :=
  {| consecutiveFailures := 0; deferred := [TickerStop]; contexts := 0 |}.

(** A call made by a probe that does not end the loop. *)
Definition isProbeCall (c : call) : bool :=
  isWithTimeout c || isPing c || isConnectionError c.

(** The three ways out of the loop. *)
Inductive exit : Type :=
| ByQuit                     (* the quit channel was chosen *)
| BySentinel                 (* the probe answered [ErrInvalidConnectionState] *)
| ByThreshold (err : error). (* the probe failed with [err] and the counter
                                reached [FailuresToClose] *)

(** The event on which the loop is left. *)
Definition exitEvent (x : exit) : event :=
  match x with
  | ByQuit => Quit
  | BySentinel => Tick (Some ErrInvalidConnectionState)
  | ByThreshold err => Tick (Some err)
  end.

(** The calls of the last pass, from the frame [f] it starts in. *)
Definition exitCalls (hco : HealthCheckOptions) (f : frame) (x : exit)
  : trace :=
  match x with
  | ByQuit => []
  | BySentinel => probeCalls hco f
  | ByThreshold err => probeCalls hco f ++ [reportCall err; closeCall err]
  end.

(** The frame at the [return]. *)
Definition exitFrame (f : frame) (x : exit) : frame :=
  match x with
  | ByQuit => f
  | BySentinel => probing f
  | ByThreshold _ =>
      withFailures (wrapInt (consecutiveFailures f + 1)) (probing f)
  end.

(** What makes the pass from [f] leave the loop that way. *)
Definition exitOn (hco : HealthCheckOptions) (f : frame) (x : exit) : Prop :=
  match x with
  | ByQuit | BySentinel => True
  | ByThreshold err =>
      err <> ErrInvalidConnectionState /\
      FailuresToClose hco <= wrapInt (consecutiveFailures f + 1)
  end.

(** The connection [c] with other health check options stored in it. *)
Definition withHealthChecks (c : Connection) (hco : HealthCheckOptions)
  : Connection :=
  {| opts := {| HealthChecks := hco |};
     healthCheckStopped := healthCheckStopped c;
     healthCheckQuit := healthCheckQuit c |}.

(** The run over [events] meets its threshold on the failure [err]: the
    events before it are the ticks [outs], after which the goroutine is
    waiting with the trace [t] and the frame [f], and one more failure
    takes the counter of [f] to [FailuresToClose] or beyond. *)
Definition thresholdReached (c : Connection) (connID : Z)
  (events : list event) (outs : list (option error)) (err : error)
  (post : list event) (t : trace) (f : frame) : Prop :=
  events = map Tick outs ++ Tick (Some err) :: post /\
  healthCheck c connID (map Tick outs) = (t, Waiting f) /\
  err <> ErrInvalidConnectionState /\
  FailuresToClose (HealthChecks (opts c)) <= consecutiveFailures f + 1.

(** *** The callers of stophealthCheck, counted by program point *)

Definition atSwap (p : pc) : bool :=
  match p with AtSwap => true | _ => false end.

Definition atDebug (p : pc) : bool :=
  match p with AtDebug => true | _ => false end.

Definition atClose (p : pc) : bool :=
  match p with AtClose => true | _ => false end.

Definition atEnd (p : pc) : bool :=
  match p with AtEnd => true | _ => false end.

(** The atomic steps a caller at [p] has before it at most. *)
Definition stepsLeft (p : pc) : nat :=
  match p with
  | AtSwap => 3
  | AtDebug => 2
  | AtClose => 1
  | AtEnd => 0
  end.

Definition countPc (q : pc -> bool) (ps : list pc) : nat :=
  List.length (filter q ps).

(** What [stophealthCheck] does to the outside world when it wins the
    swap. *)
Definition stopCalls : trace :=
  [LogDebug "Stopping health checks."; ChanClose].

(** The connection after a first [stophealthCheck]. *)
Definition stoppedConnection (c : Connection) : Connection :=
  setQuitClosed (setStopped c true).

(** The states a pool of callers goes through.  Before any swap, all
    callers are at the swap and nothing has happened.  After the first
    swap one caller, the one that read [false], is on its way: it is
    about to log, or about to close the channel, or is done and the
    channel is closed; the others are at the swap or have returned. *)
Definition poolInvariant (o : ConnectionOptions) (n : nat)
  (ps : list pc) (w : world) : Prop :=
  List.length ps = n /\
  panicked w = false /\
  opts (conn w) = o /\
  if healthCheckStopped (conn w) then
    (countPc atDebug ps = 1%nat /\ countPc atClose ps = 0%nat /\
     out w = [] /\ healthCheckQuit (conn w) = false) \/
    (countPc atDebug ps = 0%nat /\ countPc atClose ps = 1%nat /\
     out w = [LogDebug "Stopping health checks."] /\
     healthCheckQuit (conn w) = false) \/
    (countPc atDebug ps = 0%nat /\ countPc atClose ps = 0%nat /\
     out w = stopCalls /\ healthCheckQuit (conn w) = true)
  else
    Forall (fun p => p = AtSwap) ps /\ out w = [] /\
    healthCheckQuit (conn w) = false.

(** ** Further observations on runs *)

(** The frame of a run, when it has one. *)
Definition outcomeFrame (o : outcome) : option frame :=
  match o with
  | Waiting f | Returned f => Some f
  | Panicked => None
  end.

(** A call that opens a probe: the making of its context or its ping. *)
Definition isProbeStart (c : call) : bool := isWithTimeout c || isPing c.

(** [n] probes opened one after the other on the contexts [a], [a+1], ...,
    each context made with the timeout [d] and pinged before the next is
    made. *)
Definition probeStartsFrom (a n : nat) (d : Z) : trace :=
  flat_map (fun k => [WithTimeout k d; Ping k]) (seq a n).

(** The calls of the passes that answer [outs] and stay in the loop, the
    first of them on the context [a]. *)
Fixpoint waitingTrace (hco : HealthCheckOptions) (a : nat)
  (outs : list (option error)) : trace :=
  match outs with
  | [] => []
  | o :: outs' =>
      [WithTimeout a (Timeout hco); Ping a] ++ reportOf o
      ++ waitingTrace hco (S a) outs'
  end.

(** A call that is not a report, or is the report of a failed health
    check: made from the site "healthCheck", wrapping an error that is not
    the sentinel. *)
Definition isFailureReport (c : call) : bool :=
  match c with
  | ConnectionError site (Errorf fmt err) =>
      String.eqb site "healthCheck"
      && String.eqb fmt "healthCheck failed: %v"
      && negb (error_eqb err ErrInvalidConnectionState)
  | ConnectionError _ _ => false
  | _ => true
  end.

(** Options in which [withDefaults] finds nothing to resolve. *)
Definition resolved (hco : HealthCheckOptions) : Prop :=
  Timeout hco <> 0 /\ FailuresToClose hco <> 0.

(** The tick whose probe fails with [err]. *)
Definition failTick (err : error) : event := Tick (Some err).

(** The longest run of failures that [outs] reaches when it starts in a
    run of [k] failures already; 0 when [outs] has no failure. *)
Fixpoint maxStreakFrom (k : nat) (outs : list (option error)) : nat :=
  match outs with
  | [] => O
  | o :: outs' =>
      if isFailure o
      then Nat.max (S k) (maxStreakFrom (S k) outs')
      else maxStreakFrom O outs'
  end.

(** The longest run of consecutive failures in [outs]. *)
Definition maxStreak (outs : list (option error)) : nat :=
  maxStreakFrom O outs.

(** * Properties *)

(** ** Configuration *)

(** C7. [enabled] answers [true] exactly when [Interval] is positive; the
    two other fields have no part in the answer, and a zero interval gives
    [false] whatever they hold. *)
Theorem enabled_iff_interval_positive :
  (forall hco, enabled hco = true <-> 0 < Interval hco) /\
  (forall i t1 n1 t2 n2,
      enabled (mkHealthCheckOptions i t1 n1) =
      enabled (mkHealthCheckOptions i t2 n2)) /\
  (forall t n, enabled (mkHealthCheckOptions 0 t n) = false).
Proof.
  split; [| split].
  - intros hco. unfold enabled. apply Z.ltb_lt.
  - intros. reflexivity.
  - intros. reflexivity.
Qed.

Lemma withDefaults_Timeout :
  forall hco,
    Timeout (withDefaults hco) =
    if Timeout hco =? 0 then _defaultHealthCheckTimeout else Timeout hco.
Proof.
  intros [i t n]. unfold withDefaults, setTimeout, setFailuresToClose. cbn.
  destruct (t =? 0); cbn; destruct (n =? 0); reflexivity.
Qed.

Lemma withDefaults_FailuresToClose :
  forall hco,
    FailuresToClose (withDefaults hco) =
    if FailuresToClose hco =? 0 then _defaultHealthCheckFailuresToClose
    else FailuresToClose hco.
Proof.
  intros [i t n]. unfold withDefaults, setTimeout, setFailuresToClose. cbn.
  destruct (t =? 0); cbn; destruct (n =? 0); reflexivity.
Qed.

Lemma withDefaults_Interval :
  forall hco, Interval (withDefaults hco) = Interval hco.
Proof.
  intros [i t n]. unfold withDefaults, setTimeout, setFailuresToClose. cbn.
  destruct (t =? 0); cbn; destruct (n =? 0); reflexivity.
Qed.

(** C6.  [withDefaults] gives one second for a zero [Timeout] and keeps any
    other, gives 5 for a zero [FailuresToClose] and keeps any other, and
    keeps [Interval] whatever it is; the caller's value is the same after
    the call. *)
Theorem withDefaults_fields :
  forall hco,
    Timeout (withDefaults hco) =
      (if Timeout hco =? 0 then 1000000000 else Timeout hco) /\
    FailuresToClose (withDefaults hco) =
      (if FailuresToClose hco =? 0 then 5 else FailuresToClose hco) /\
    Interval (withDefaults hco) = Interval hco /\
    callWithDefaults hco = (hco, withDefaults hco).
Proof.
  intros hco.
  split; [apply withDefaults_Timeout |].
  split; [apply withDefaults_FailuresToClose |].
  split; [apply withDefaults_Interval |].
  reflexivity.
Qed.

(** Resolved options have no zero left in the two defaulted fields. *)
Lemma withDefaults_resolved :
  forall hco,
    Timeout (withDefaults hco) <> 0 /\
    FailuresToClose (withDefaults hco) <> 0.
Proof.
  intros hco.
  rewrite withDefaults_Timeout, withDefaults_FailuresToClose.
  unfold _defaultHealthCheckTimeout, _defaultHealthCheckFailuresToClose,
    Second.
  destruct (Z.eqb_spec (Timeout hco) 0);
    destruct (Z.eqb_spec (FailuresToClose hco) 0); split; lia.
Qed.

Lemma withDefaults_idempotent :
  forall hco, withDefaults (withDefaults hco) = withDefaults hco.
Proof.
  intros [i t n].
  unfold withDefaults, setTimeout, setFailuresToClose,
    _defaultHealthCheckTimeout, _defaultHealthCheckFailuresToClose, Second.
  cbn.
  destruct (Z.eqb_spec t 0) as [Ht | Ht]; cbn;
    destruct (Z.eqb_spec n 0) as [Hn | Hn]; cbn;
    try (destruct (Z.eqb_spec t 0); [lia |]); cbn;
    try (destruct (Z.eqb_spec n 0); [lia |]); reflexivity.
Qed.

(** ** Errors *)

Lemma error_eqb_refl : forall e, error_eqb e e = true.
Proof.
  induction e as [| m | fmt a IH]; cbn.
  - reflexivity.
  - apply String.eqb_refl.
  - rewrite String.eqb_refl, IH. reflexivity.
Qed.

Lemma error_eqb_eq : forall e1 e2, error_eqb e1 e2 = true <-> e1 = e2.
Proof.
  intros e1 e2. split.
  - revert e2. induction e1 as [| m1 | f1 a1 IH]; intros [| m2 | f2 a2];
      cbn; try discriminate; intros H.
    + reflexivity.
    + apply String.eqb_eq in H. now subst.
    + apply andb_true_iff in H. destruct H as [Hf Ha].
      apply String.eqb_eq in Hf. apply IH in Ha. now subst.
  - intros ->. apply error_eqb_refl.
Qed.

Lemma error_eqb_sentinel_false :
  forall err,
    err <> ErrInvalidConnectionState ->
    error_eqb err ErrInvalidConnectionState = false.
Proof.
  intros err Hne.
  destruct (error_eqb err ErrInvalidConnectionState) eqn:E; [| reflexivity].
  apply error_eqb_eq in E. contradiction.
Qed.

(** ** Integers *)

Lemma wrapInt_id : forall z, isInt z -> wrapInt z = z.
Proof.
  intros z [Hlo Hhi]. unfold wrapInt.
  unfold minInt, maxInt, intSize in *.
  rewrite Z.mod_small; lia.
Qed.

Lemma wrapInt_isInt : forall z, isInt (wrapInt z).
Proof.
  intros z. unfold wrapInt, isInt, minInt, maxInt, intSize.
  pose proof (Z.mod_pos_bound (z - - 2 ^ (64 - 1)) (2 ^ 64) ltac:(lia)).
  lia.
Qed.

(** ** One pass through the loop *)

Section Iteration.

Variable hco : HealthCheckOptions.

Lemma iteration_quit :
  forall f, iteration hco Quit f = ([], f, Return).
Proof. reflexivity. Qed.

Lemma iteration_success :
  forall f,
    iteration hco (Tick None) f =
    (probeCalls hco f, withFailures 0 (probing f), Continue).
Proof. reflexivity. Qed.

Lemma iteration_sentinel :
  forall f,
    iteration hco (Tick (Some ErrInvalidConnectionState)) f =
    (probeCalls hco f, probing f, Return).
Proof. reflexivity. Qed.

Lemma iteration_failure :
  forall f err,
    err <> ErrInvalidConnectionState ->
    iteration hco (Tick (Some err)) f =
    let n := wrapInt (consecutiveFailures f + 1) in
    if FailuresToClose hco <=? n
    then (probeCalls hco f ++ [reportCall err; closeCall err],
          withFailures n (probing f), Return)
    else (probeCalls hco f ++ [reportCall err],
          withFailures n (probing f), Continue).
Proof.
  intros f err Hne. unfold iteration.
  cbv beta iota delta [bind withTimeout defer ping emit ret getFailures
                       setFailures].
  cbn -[wrapInt Z.leb].
  rewrite (error_eqb_sentinel_false err Hne).
  cbn -[wrapInt Z.leb].
  destruct (FailuresToClose hco <=? wrapInt (consecutiveFailures f + 1));
    reflexivity.
Qed.

End Iteration.

(** ** The loop *)

Section Loop.

Variable hco : HealthCheckOptions.

Lemma iteration_continue_inv :
  forall e f t f',
    iteration hco e f = (t, f', Continue) ->
    exists o,
      e = Tick o /\ isSentinel o = false /\
      t = probeCalls hco f ++ reportOf o /\
      f' = withFailures (bump o (consecutiveFailures f)) (probing f) /\
      (isFailure o = true ->
       bump o (consecutiveFailures f) < FailuresToClose hco).
Proof.
  intros e f t f' H.
  destruct e as [[err |] |].
  - destruct (error_eqb err ErrInvalidConnectionState) eqn:E.
    + apply error_eqb_eq in E. subst err.
      rewrite iteration_sentinel in H. discriminate.
    + assert (Hne : err <> ErrInvalidConnectionState).
      { intros ->. discriminate. }
      rewrite (iteration_failure hco f err Hne) in H. cbv zeta in H.
      destruct (Z.leb_spec (FailuresToClose hco)
                  (wrapInt (consecutiveFailures f + 1))) as [Hle | Hlt];
        [discriminate |].
      injection H as <- <-.
      exists (Some err). cbn. rewrite E. repeat split; auto.
  - rewrite iteration_success in H. injection H as <- <-.
    exists None. cbn. repeat split; auto. discriminate.
  - rewrite iteration_quit in H. discriminate.
Qed.

Lemma iteration_return_inv :
  forall e f t f',
    iteration hco e f = (t, f', Return) ->
    (e = Quit /\ t = [] /\ f' = f) \/
    (e = Tick (Some ErrInvalidConnectionState) /\
     t = probeCalls hco f /\ f' = probing f) \/
    (exists err,
        e = Tick (Some err) /\ err <> ErrInvalidConnectionState /\
        FailuresToClose hco <= wrapInt (consecutiveFailures f + 1) /\
        t = probeCalls hco f ++ [reportCall err; closeCall err] /\
        f' = withFailures (wrapInt (consecutiveFailures f + 1))
               (probing f)).
Proof.
  intros e f t f' H.
  destruct e as [[err |] |].
  - destruct (error_eqb err ErrInvalidConnectionState) eqn:E.
    + apply error_eqb_eq in E. subst err.
      rewrite iteration_sentinel in H. injection H as <- <-.
      right; left. auto.
    + assert (Hne : err <> ErrInvalidConnectionState).
      { intros ->. discriminate. }
      rewrite (iteration_failure hco f err Hne) in H. cbv zeta in H.
      destruct (Z.leb_spec (FailuresToClose hco)
                  (wrapInt (consecutiveFailures f + 1))) as [Hle | Hlt];
        [| discriminate].
      injection H as <- <-.
      right; right. exists err. repeat split; auto.
  - rewrite iteration_success in H. discriminate.
  - rewrite iteration_quit in H. injection H as <- <-. left. auto.
Qed.

Lemma loop_nil : forall f, loop hco [] f = ([], f, false).
Proof. reflexivity. Qed.

Lemma loop_cons :
  forall e es f,
    loop hco (e :: es) f =
    match iteration hco e f with
    | (t, f1, Return) => (t, f1, true)
    | (t, f1, Continue) =>
        match loop hco es f1 with
        | (t2, f2, r) => (t ++ t2, f2, r)
        end
    end.
Proof.
  intros e es f. cbn [loop]. unfold bind at 1.
  destruct (iteration hco e f) as [[t f1] [|]].
  - reflexivity.
  - cbn. rewrite app_nil_r. reflexivity.
Qed.

(** A run over [pre ++ post] is the run over [pre] and, when that one is
    still in the loop, the run over [post] from where it stands. *)
Lemma loop_app :
  forall pre post f,
    loop hco (pre ++ post) f =
    match loop hco pre f with
    | (t, f1, true) => (t, f1, true)
    | (t, f1, false) =>
        match loop hco post f1 with
        | (t2, f2, r) => (t ++ t2, f2, r)
        end
    end.
Proof.
  induction pre as [| e pre IH]; intros post f.
  - cbn [app]. rewrite loop_nil.
    destruct (loop hco post f) as [[t2 f2] r]. reflexivity.
  - cbn [app]. rewrite !loop_cons.
    destruct (iteration hco e f) as [[t f1] [|]]; [| reflexivity].
    rewrite IH.
    destruct (loop hco pre f1) as [[t1 f2] [|]]; [reflexivity |].
    destruct (loop hco post f2) as [[t2 f3] r].
    rewrite app_assoc. reflexivity.
Qed.

(** A run that has returned did so on one event, before which it was
    in the loop. *)
Lemma loop_returned_inv :
  forall events f t f',
    loop hco events f = (t, f', true) ->
    exists pre e post t1 f1 t2,
      events = pre ++ e :: post /\
      loop hco pre f = (t1, f1, false) /\
      iteration hco e f1 = (t2, f', Return) /\
      t = t1 ++ t2.
Proof.
  induction events as [| e es IH]; intros f t f' H.
  - rewrite loop_nil in H. discriminate.
  - rewrite loop_cons in H.
    destruct (iteration hco e f) as [[t0 f0] [|]] eqn:E.
    + destruct (loop hco es f0) as [[t2 f2] r] eqn:L.
      injection H as <- <- ->.
      destruct (IH _ _ _ L) as (pre & e' & post & t1 & f1 & t3 &
                                -> & Hpre & Hit & ->).
      exists (e :: pre), e', post, (t0 ++ t1), f1, t3.
      repeat split; auto.
      * rewrite loop_cons, E, Hpre. reflexivity.
      * rewrite app_assoc. reflexivity.
    + injection H as <- <-.
      exists [], e, es, [], f, t0. repeat split; auto.
Qed.

(** The converse: an event that makes the pass return ends the run. *)
Lemma loop_return_at :
  forall pre e post f t1 f1 t2 f2,
    loop hco pre f = (t1, f1, false) ->
    iteration hco e f1 = (t2, f2, Return) ->
    loop hco (pre ++ e :: post) f = (t1 ++ t2, f2, true).
Proof.
  intros pre e post f t1 f1 t2 f2 Hpre Hit.
  rewrite loop_app, Hpre, loop_cons, Hit. reflexivity.
Qed.

(** A prefix of a run that is in the loop is in the loop. *)
Lemma loop_waiting_prefix :
  forall pre post f t f',
    loop hco (pre ++ post) f = (t, f', false) ->
    exists t1 f1 t2,
      loop hco pre f = (t1, f1, false) /\
      loop hco post f1 = (t2, f', false) /\
      t = t1 ++ t2.
Proof.
  intros pre post f t f' H. rewrite loop_app in H.
  destruct (loop hco pre f) as [[t1 f1] [|]]; [discriminate |].
  destruct (loop hco post f1) as [[t2 f2] r] eqn:L.
  injection H as <- <- ->.
  exists t1, f1, t2. auto.
Qed.

End Loop.

(** ** Counting calls *)

Lemma count_app :
  forall p t1 t2, count p (t1 ++ t2) = (count p t1 + count p t2)%nat.
Proof.
  intros p t1 t2. unfold count. rewrite filter_app, length_app. reflexivity.
Qed.

Lemma count_cons :
  forall p c t,
    count p (c :: t) = ((if p c then 1 else 0) + count p t)%nat.
Proof.
  intros p c t. unfold count. cbn. destruct (p c); reflexivity.
Qed.

Lemma count_none :
  forall p t, Forall (fun c => p c = false) t -> count p t = 0%nat.
Proof.
  intros p t H. induction H as [| c t Hc _ IH].
  - reflexivity.
  - rewrite count_cons, Hc, IH. reflexivity.
Qed.

Lemma probeCall_not :
  forall c,
    isProbeCall c = true ->
    isConnClose c = false /\ isRelease c = false /\
    isTickerStop c = false /\ isCancel c = false /\ isNewTicker c = false.
Proof.
  intros [] H; cbn in *; try discriminate; repeat split.
Qed.

Lemma Forall_probeCall_count :
  forall t,
    Forall (fun c => isProbeCall c = true) t ->
    count isConnClose t = 0%nat /\ count isRelease t = 0%nat /\
    count isTickerStop t = 0%nat /\ count isCancel t = 0%nat.
Proof.
  intros t H.
  repeat split; apply count_none;
    (eapply Forall_impl; [| exact H]); intros c Hc;
    apply probeCall_not in Hc; tauto.
Qed.

Lemma unreleasedFrom_app :
  forall t1 t2 live,
    unreleasedFrom live (t1 ++ t2) =
    unreleasedFrom (unreleasedFrom live t1) t2.
Proof.
  induction t1 as [| c t1 IH]; intros t2 live.
  - reflexivity.
  - destruct c; cbn; apply IH.
Qed.

(** ** Runs that are still in the loop *)

Section Waiting.

Variable hco : HealthCheckOptions.

(** Only ticks whose probe did not answer the sentinel keep the loop
    going. *)
Lemma loop_waiting_events :
  forall events f t f',
    loop hco events f = (t, f', false) ->
    exists outs,
      events = map Tick outs /\
      Forall (fun o => isSentinel o = false) outs.
Proof.
  induction events as [| e es IH]; intros f t f' H.
  - exists []. split; [reflexivity | constructor].
  - rewrite loop_cons in H.
    destruct (iteration hco e f) as [[t0 f0] [|]] eqn:E; [| discriminate].
    destruct (loop hco es f0) as [[t2 f2] r] eqn:L.
    injection H as <- <- ->.
    apply iteration_continue_inv in E.
    destruct E as (o & -> & Hs & _).
    destruct (IH _ _ _ L) as (outs & -> & Houts).
    exists (o :: outs). split; [reflexivity | constructor; assumption].
Qed.

(** Such a run has made probe calls only, one context and one ping for
    each event. *)
Lemma loop_waiting_trace :
  forall events f t f',
    loop hco events f = (t, f', false) ->
    Forall (fun c => isProbeCall c = true) t /\
    count isWithTimeout t = List.length events /\
    count isPing t = List.length events.
Proof.
  induction events as [| e es IH]; intros f t f' H.
  - rewrite loop_nil in H. injection H as <- <-.
    repeat split. constructor.
  - rewrite loop_cons in H.
    destruct (iteration hco e f) as [[t0 f0] [|]] eqn:E; [| discriminate].
    destruct (loop hco es f0) as [[t2 f2] r] eqn:L.
    injection H as <- <- ->.
    apply iteration_continue_inv in E.
    destruct E as (o & -> & _ & -> & _ & _).
    destruct (IH _ _ _ L) as (IH1 & IH2 & IH3).
    repeat split.
    + apply Forall_app. split; [| assumption].
      destruct o; cbn; repeat constructor.
    + rewrite count_app, IH2. destruct o; reflexivity.
    + rewrite count_app, IH3. destruct o; reflexivity.
Qed.

(** Its frame holds one deferred [cancel] for each of the contexts made,
    the latest on top, above what was deferred before. *)
Lemma loop_waiting_frame :
  forall events f t f',
    loop hco events f = (t, f', false) ->
    contexts f' = (contexts f + List.length events)%nat /\
    deferred f' =
      map Cancel (rev (seq (contexts f) (List.length events)))
      ++ deferred f.
Proof.
  induction events as [| e es IH]; intros f t f' H.
  - rewrite loop_nil in H. injection H as <- <-.
    cbn. split; [lia | reflexivity].
  - rewrite loop_cons in H.
    destruct (iteration hco e f) as [[t0 f0] [|]] eqn:E; [| discriminate].
    destruct (loop hco es f0) as [[t2 f2] r] eqn:L.
    injection H as <- <- ->.
    apply iteration_continue_inv in E.
    destruct E as (o & -> & _ & -> & -> & _).
    destruct (IH _ _ _ L) as (IH1 & IH2).
    cbn [withFailures probing contexts deferred] in IH1, IH2.
    split.
    + rewrite IH1. cbn [List.length]. lia.
    + rewrite IH2. cbn [List.length seq rev].
      rewrite map_app, <- app_assoc. reflexivity.
Qed.

(** None of the contexts it made has been cancelled. *)
Lemma loop_waiting_unreleased :
  forall events f t f' live,
    loop hco events f = (t, f', false) ->
    unreleasedFrom live t =
      rev (seq (contexts f) (List.length events)) ++ live.
Proof.
  induction events as [| e es IH]; intros f t f' live H.
  - rewrite loop_nil in H. injection H as <- <-. reflexivity.
  - rewrite loop_cons in H.
    destruct (iteration hco e f) as [[t0 f0] [|]] eqn:E; [| discriminate].
    destruct (loop hco es f0) as [[t2 f2] r] eqn:L.
    injection H as <- <- ->.
    apply iteration_continue_inv in E.
    destruct E as (o & -> & _ & -> & -> & _).
    rewrite unreleasedFrom_app.
    rewrite (IH _ _ _ _ L).
    cbn [withFailures probing contexts List.length seq rev].
    rewrite <- app_assoc.
    destruct o; reflexivity.
Qed.

Hypothesis threshold_is_int : FailuresToClose hco <= maxInt.

(** The counter follows the streak and never wraps around; unless it is
    zero it is below the threshold. *)
Lemma loop_waiting_counter :
  forall outs f t f',
    0 <= consecutiveFailures f < maxInt ->
    consecutiveFailures f = 0 \/
      consecutiveFailures f < FailuresToClose hco ->
    loop hco (map Tick outs) f = (t, f', false) ->
    consecutiveFailures f' = streakFrom (consecutiveFailures f) outs /\
    0 <= consecutiveFailures f' < maxInt /\
    (consecutiveFailures f' = 0 \/
     consecutiveFailures f' < FailuresToClose hco).
Proof.
  induction outs as [| o outs IH]; intros f t f' Hcf Hbelow H.
  - cbn [map] in H. rewrite loop_nil in H. injection H as <- <-.
    split; [reflexivity | split; assumption].
  - cbn [map] in H. rewrite loop_cons in H.
    destruct (iteration hco (Tick o) f) as [[t0 f0] [|]] eqn:E;
      [| discriminate].
    destruct (loop hco (map Tick outs) f0) as [[t2 f2] r] eqn:L.
    injection H as <- <- ->.
    apply iteration_continue_inv in E.
    destruct E as (o' & [= <-] & Hs & -> & -> & Hlt).
    assert (Hb : bump o (consecutiveFailures f) =
                 (if isFailure o then consecutiveFailures f + 1 else 0)).
    { destruct o as [err |]; cbn in *; [| reflexivity].
      rewrite Hs. cbn. apply wrapInt_id.
      unfold isInt, minInt, maxInt, intSize in *. lia. }
    assert (Hinv : 0 <= bump o (consecutiveFailures f) < maxInt).
    { destruct (isFailure o) eqn:Ef.
      - specialize (Hlt eq_refl). rewrite Hb in *. lia.
      - rewrite Hb. unfold maxInt, intSize. lia. }
    assert (Hbelow' : bump o (consecutiveFailures f) = 0 \/
                      bump o (consecutiveFailures f)
                      < FailuresToClose hco).
    { destruct (isFailure o) eqn:Ef.
      - right. apply Hlt. reflexivity.
      - left. exact Hb. }
    destruct (IH (withFailures (bump o (consecutiveFailures f)) (probing f))
                _ _ Hinv Hbelow' L) as (IH1 & IH2 & IH3).
    cbn [withFailures consecutiveFailures] in IH1.
    split; [| split; assumption].
    rewrite IH1, Hb. reflexivity.
Qed.

End Waiting.

(** ** Leaving the loop *)

Section Leaving.

Variable hco : HealthCheckOptions.

Lemma iteration_return_exit :
  forall e f t f',
    iteration hco e f = (t, f', Return) <->
    exists x,
      e = exitEvent x /\ exitOn hco f x /\
      t = exitCalls hco f x /\ f' = exitFrame f x.
Proof.
  intros e f t f'. split.
  - intros H. apply iteration_return_inv in H.
    destruct H as [(-> & -> & ->) | [(-> & -> & ->) |
                   (err & -> & Hne & Hle & -> & ->)]].
    + exists ByQuit. cbn. auto.
    + exists BySentinel. cbn. auto.
    + exists (ByThreshold err). cbn. auto.
  - intros ([| | err] & -> & Hon & -> & ->);
      cbn [exitEvent exitCalls exitFrame exitOn] in *.
    + apply iteration_quit.
    + apply iteration_sentinel.
    + destruct Hon as [Hne Hle].
      rewrite (iteration_failure hco f err Hne). cbv zeta.
      apply Z.leb_le in Hle. rewrite Hle. reflexivity.
Qed.

(** The deferred stack is the ticker's stop under a pile of cancels. *)
Lemma exitFrame_deferred :
  forall f x,
    exists cs,
      deferred (exitFrame f x) = cs ++ deferred f /\
      Forall (fun c => isCancel c = true) cs.
Proof.
  intros f [| | err]; cbn.
  - exists []. split; [reflexivity | constructor].
  - exists [Cancel (contexts f)]. split; [reflexivity |].
    repeat constructor.
  - exists [Cancel (contexts f)]. split; [reflexivity |].
    repeat constructor.
Qed.

End Leaving.

(** ** healthCheck as a whole *)

Section HealthCheck.

Variable c : Connection.
Variable connID : Z.

Local Abbreviation hco := (HealthChecks (opts c)).

Lemma healthCheck_eq :
  forall events,
    healthCheck c connID events =
    if Interval hco <=? 0 then ([NewTicker (Interval hco)], Panicked)
    else
      match loop hco events frame1 with
      | (t, f, true) =>
          (NewTicker (Interval hco) :: t ++ deferred f, Returned f)
      | (t, f, false) => (NewTicker (Interval hco) :: t, Waiting f)
      end.
Proof.
  intros events. unfold healthCheck. fold hco.
  destruct (Interval hco <=? 0); [reflexivity |].
  unfold bind, emit, defer. cbn -[loop].
  change (mkFrame 0 [TickerStop] 0) with frame1.
  destruct (loop hco events frame1) as [[t f] [|]]; reflexivity.
Qed.

Lemma healthCheck_waiting_inv :
  forall events tr f,
    healthCheck c connID events = (tr, Waiting f) ->
    0 < Interval hco /\
    exists t,
      loop hco events frame1 = (t, f, false) /\
      tr = NewTicker (Interval hco) :: t.
Proof.
  intros events tr f H. rewrite healthCheck_eq in H.
  destruct (Z.leb_spec (Interval hco) 0); [discriminate |].
  split; [assumption |].
  destruct (loop hco events frame1) as [[t f0] [|]]; [discriminate |].
  injection H as <- <-. exists t. auto.
Qed.

Lemma healthCheck_waiting_intro :
  forall events t f,
    0 < Interval hco ->
    loop hco events frame1 = (t, f, false) ->
    healthCheck c connID events =
    (NewTicker (Interval hco) :: t, Waiting f).
Proof.
  intros events t f Hi H. rewrite healthCheck_eq, H.
  destruct (Z.leb_spec (Interval hco) 0); [lia | reflexivity].
Qed.

Lemma healthCheck_returned_inv :
  forall events tr f,
    healthCheck c connID events = (tr, Returned f) ->
    0 < Interval hco /\
    exists t,
      loop hco events frame1 = (t, f, true) /\
      tr = NewTicker (Interval hco) :: t ++ deferred f.
Proof.
  intros events tr f H. rewrite healthCheck_eq in H.
  destruct (Z.leb_spec (Interval hco) 0); [discriminate |].
  split; [assumption |].
  destruct (loop hco events frame1) as [[t f0] [|]]; [| discriminate].
  injection H as <- <-. exists t. auto.
Qed.

Lemma healthCheck_panicked_inv :
  forall events tr,
    healthCheck c connID events = (tr, Panicked) ->
    Interval hco <= 0 /\ tr = [NewTicker (Interval hco)].
Proof.
  intros events tr H. rewrite healthCheck_eq in H.
  destruct (Z.leb_spec (Interval hco) 0).
  - injection H as <-. auto.
  - destruct (loop hco events frame1) as [[t f0] [|]]; discriminate.
Qed.

(** A run that has returned was waiting after some ticks and left the
    loop on the next event, in one of the three ways. *)
Lemma healthCheck_returned_exit :
  forall events tr f',
    healthCheck c connID events = (tr, Returned f') ->
    exists outs x post t f,
      events = map Tick outs ++ exitEvent x :: post /\
      healthCheck c connID (map Tick outs) = (t, Waiting f) /\
      exitOn hco f x /\
      tr = t ++ exitCalls hco f x ++ deferred (exitFrame f x) /\
      f' = exitFrame f x.
Proof.
  intros events tr f' H.
  apply healthCheck_returned_inv in H.
  destruct H as (Hi & t & Hl & ->).
  apply loop_returned_inv in Hl.
  destruct Hl as (pre & e & post & t1 & f1 & t2 & -> & Hpre & Hit & ->).
  destruct (loop_waiting_events _ _ _ _ _ Hpre) as (outs & -> & _).
  apply iteration_return_exit in Hit.
  destruct Hit as (x & -> & Hon & -> & ->).
  exists outs, x, post, (NewTicker (Interval hco) :: t1), f1.
  repeat split; auto.
  - apply healthCheck_waiting_intro; assumption.
  - cbn [app]. rewrite <- app_assoc. reflexivity.
Qed.

(** The converse: from a waiting run, an event that leaves the loop
    gives the run that has returned, whatever follows. *)
Lemma healthCheck_exit_at :
  forall pre x post t f,
    healthCheck c connID pre = (t, Waiting f) ->
    exitOn hco f x ->
    healthCheck c connID (pre ++ exitEvent x :: post) =
    (t ++ exitCalls hco f x ++ deferred (exitFrame f x),
     Returned (exitFrame f x)).
Proof.
  intros pre x post t f H Hon.
  apply healthCheck_waiting_inv in H.
  destruct H as (Hi & t1 & Hl & ->).
  assert (Hit : iteration hco (exitEvent x) f =
                (exitCalls hco f x, exitFrame f x, Return)).
  { apply iteration_return_exit. exists x. auto. }
  rewrite healthCheck_eq.
  rewrite (loop_return_at hco pre (exitEvent x) post _ _ _ _ _ Hl Hit).
  destruct (Z.leb_spec (Interval hco) 0); [lia |].
  cbn [app]. rewrite <- app_assoc. reflexivity.
Qed.

(** What a waiting run looks like. *)
Lemma healthCheck_waiting_shape :
  forall events tr f,
    healthCheck c connID events = (tr, Waiting f) ->
    exists t,
      tr = NewTicker (Interval hco) :: t /\
      Forall (fun c => isProbeCall c = true) t /\
      count isPing t = List.length events /\
      contexts f = List.length events /\
      deferred f =
        map Cancel (rev (seq 0 (List.length events))) ++ [TickerStop] /\
      unreleased tr = rev (seq 0 (List.length events)).
Proof.
  intros events tr f H.
  apply healthCheck_waiting_inv in H.
  destruct H as (Hi & t & Hl & ->).
  exists t.
  destruct (loop_waiting_trace _ _ _ _ _ Hl) as (Ht & _ & Hp).
  destruct (loop_waiting_frame _ _ _ _ _ Hl) as (Hc & Hd).
  repeat split; auto.
  unfold unreleased. cbn [unreleasedFrom].
  rewrite (loop_waiting_unreleased _ _ _ _ _ [] Hl).
  apply app_nil_r.
Qed.

End HealthCheck.

(** ** Resources: contexts and the ticker *)

Lemma unreleasedFrom_cancel_all :
  forall ctxs live,
    incl live ctxs ->
    unreleasedFrom live (map Cancel ctxs) = [].
Proof.
  induction ctxs as [| x ctxs IH]; intros live Hin.
  - cbn. destruct live as [| y live]; [reflexivity |].
    destruct (Hin y (or_introl eq_refl)).
  - cbn. apply IH. intros y Hy.
    apply in_remove in Hy. destruct Hy as [Hy Hne].
    destruct (Hin y Hy) as [-> | H]; [contradiction | assumption].
Qed.

Lemma unreleasedFrom_probeCalls :
  forall hco f live,
    unreleasedFrom live (probeCalls hco f) = contexts f :: live.
Proof. reflexivity. Qed.

Lemma tickerRunning_stopped :
  forall t, tickerRunning (t ++ [TickerStop]) = false.
Proof.
  intros t. unfold tickerRunning. rewrite fold_left_app. reflexivity.
Qed.

Lemma tickerRunning_probeCalls :
  forall t b,
    Forall (fun c => isProbeCall c = true) t ->
    fold_left
      (fun running c =>
         match c with
         | NewTicker _ => true
         | TickerStop => false
         | _ => running
         end) t b = b.
Proof.
  induction t as [| c t IH]; intros b H.
  - reflexivity.
  - inversion H as [| ? ? Hc Ht]; subst. cbn [fold_left].
    destruct c; cbn in Hc; try discriminate; apply IH; assumption.
Qed.

(** A run that is waiting in [select] has its ticker running. *)
Lemma healthCheck_waiting_ticker :
  forall c connID events tr f,
    healthCheck c connID events = (tr, Waiting f) ->
    tickerRunning tr = true.
Proof.
  intros c connID events tr f H.
  apply healthCheck_waiting_shape in H.
  destruct H as (t & -> & Ht & _).
  unfold tickerRunning. cbn [fold_left].
  apply tickerRunning_probeCalls. assumption.
Qed.

(** C1 (as the code has it).  While the goroutine waits in [select], none
    of the contexts it made has been cancelled: after [k] probes there are
    [k] of them, their [cancel]s sitting on the deferred stack above the
    ticker's stop. *)
Theorem cancel_deferred_until_return :
  forall c connID events tr f,
    healthCheck c connID events = (tr, Waiting f) ->
    unreleased tr = rev (seq 0 (List.length events)) /\
    List.length (unreleased tr) = List.length events /\
    count isCancel tr = 0%nat /\
    deferred f = map Cancel (unreleased tr) ++ [TickerStop].
Proof.
  intros c connID events tr f H.
  apply healthCheck_waiting_shape in H.
  destruct H as (t & -> & Ht & _ & _ & Hd & Hu).
  rewrite Hu. repeat split.
  - rewrite length_rev, length_seq. reflexivity.
  - rewrite count_cons. cbn.
    apply Forall_probeCall_count in Ht. tauto.
  - assumption.
Qed.

Lemma cancel_deferred_until_return_witness :
  let c := mkConnection
             (mkConnectionOptions (mkHealthCheckOptions Second Second 5))
             false false in
  let tr := fst (healthCheck c 1 [Tick None; Tick None; Tick None]) in
  unreleased tr = [2; 1; 0]%nat /\ count isCancel tr = 0%nat.
Proof.
  cbv zeta.
  destruct (cancel_deferred_until_return
              (mkConnection
                 (mkConnectionOptions (mkHealthCheckOptions Second Second 5))
                 false false)
              1 [Tick None; Tick None; Tick None] _ _ eq_refl)
    as (Hu & _ & Hc & _).
  split; [exact Hu | exact Hc].
Defined.

(** The cancels run when the function returns: a run that has returned
    holds no context any more. *)
Lemma healthCheck_returned_releases :
  forall c connID events tr f,
    healthCheck c connID events = (tr, Returned f) ->
    unreleased tr = [].
Proof.
  intros c connID events tr f' H.
  apply healthCheck_returned_exit in H.
  destruct H as (outs & x & post & t & f & -> & Hw & Hon & -> & ->).
  apply healthCheck_waiting_shape in Hw.
  destruct Hw as (t1 & -> & _ & _ & Hc & Hd & Hu).
  unfold unreleased in *.
  rewrite unreleasedFrom_app, Hu, unreleasedFrom_app.
  set (live := rev (seq 0 (List.length (map Tick outs)))) in *.
  destruct x as [| | err]; cbn [exitCalls exitFrame probing withFailures
                                 deferred].
  - cbn [unreleasedFrom]. rewrite Hd, unreleasedFrom_app.
    rewrite unreleasedFrom_cancel_all by apply incl_refl. reflexivity.
  - rewrite unreleasedFrom_probeCalls, Hd.
    change (Cancel (contexts f) :: map Cancel live ++ [TickerStop])
      with (map Cancel (contexts f :: live) ++ [TickerStop]).
    rewrite unreleasedFrom_app.
    rewrite unreleasedFrom_cancel_all by apply incl_refl. reflexivity.
  - rewrite unreleasedFrom_app, unreleasedFrom_probeCalls, Hd.
    change (unreleasedFrom (contexts f :: live)
              [reportCall err; closeCall err])
      with (contexts f :: live).
    change (Cancel (contexts f) :: map Cancel live ++ [TickerStop])
      with (map Cancel (contexts f :: live) ++ [TickerStop]).
    rewrite unreleasedFrom_app.
    rewrite unreleasedFrom_cancel_all by apply incl_refl. reflexivity.
Qed.

(** The trace of a run that has returned: the ticker is made first and
    stopped last, and stopped once. *)
Lemma healthCheck_returned_trace :
  forall c connID events tr f,
    healthCheck c connID events = (tr, Returned f) ->
    exists body,
      tr = NewTicker (Interval (HealthChecks (opts c))) :: body
           ++ [TickerStop] /\
      count isTickerStop body = 0%nat /\
      count isNewTicker body = 0%nat.
Proof.
  intros c connID events tr f' H.
  apply healthCheck_returned_exit in H.
  destruct H as (outs & x & post & t & f & -> & Hw & Hon & -> & ->).
  apply healthCheck_waiting_shape in Hw.
  destruct Hw as (t1 & -> & Ht1 & _ & _ & Hd & _).
  destruct (exitFrame_deferred f x) as (cs & Hcs & Hcancel).
  rewrite Hcs, Hd.
  set (cancels := map Cancel (rev (seq 0 (List.length (map Tick outs))))).
  exists (t1 ++ exitCalls (HealthChecks (opts c)) f x ++ cs ++ cancels).
  split.
  - cbn [app]. rewrite <- !app_assoc. reflexivity.
  - assert (Hprobe : forall p,
               (forall c0, isProbeCall c0 = true -> p c0 = false) ->
               count p t1 = 0%nat).
    { intros p Hp. apply count_none.
      eapply Forall_impl; [| exact Ht1]. exact Hp. }
    assert (Hcanc : forall p l,
               (forall c0, isCancel c0 = true -> p c0 = false) ->
               Forall (fun c0 => isCancel c0 = true) l ->
               count p l = 0%nat).
    { intros p l Hp Hl. apply count_none.
      eapply Forall_impl; [| exact Hl]. exact Hp. }
    assert (Hcancels : Forall (fun c0 => isCancel c0 = true) cancels).
    { unfold cancels. apply Forall_map, Forall_forall. reflexivity. }
    split; rewrite !count_app.
    + rewrite (Hprobe isTickerStop), (Hcanc isTickerStop cs),
        (Hcanc isTickerStop cancels); auto.
      * destruct x; reflexivity.
      * intros []; cbn; congruence.
      * intros []; cbn; congruence.
      * intros []; cbn; congruence.
    + rewrite (Hprobe isNewTicker), (Hcanc isNewTicker cs),
        (Hcanc isNewTicker cancels); auto.
      * destruct x; reflexivity.
      * intros []; cbn; congruence.
      * intros []; cbn; congruence.
      * intros []; cbn; congruence.
Qed.

(** C8.  However [healthCheck] returns, the ticker it made on entry has
    been stopped: the stop is the last call of the run and there is one of
    it; and each of the three ways out of the loop (the quit channel, the
    sentinel error, the threshold) does make the function return. *)
Theorem ticker_stopped_on_every_exit :
  forall c connID,
    (forall events tr f,
        healthCheck c connID events = (tr, Returned f) ->
        (exists body, tr = body ++ [TickerStop]) /\
        count isNewTicker tr = 1%nat /\
        count isTickerStop tr = 1%nat /\
        tickerRunning tr = false) /\
    (forall pre t f x post,
        healthCheck c connID pre = (t, Waiting f) ->
        exitOn (HealthChecks (opts c)) f x ->
        tickerRunning t = true /\
        exists tr,
          healthCheck c connID (pre ++ exitEvent x :: post) =
            (tr, Returned (exitFrame f x)) /\
          tickerRunning tr = false).
Proof.
  intros c connID.
  assert (Hret : forall events tr f,
             healthCheck c connID events = (tr, Returned f) ->
             (exists body, tr = body ++ [TickerStop]) /\
             count isNewTicker tr = 1%nat /\
             count isTickerStop tr = 1%nat /\
             tickerRunning tr = false).
  { intros events tr f H.
    apply healthCheck_returned_trace in H.
    destruct H as (body & -> & Hs & Hn).
    repeat split.
    - exists (NewTicker (Interval (HealthChecks (opts c))) :: body).
      reflexivity.
    - rewrite count_cons, count_app, Hn. reflexivity.
    - rewrite count_cons, count_app, Hs. reflexivity.
    - change (NewTicker (Interval (HealthChecks (opts c))) :: body
              ++ [TickerStop])
        with ((NewTicker (Interval (HealthChecks (opts c))) :: body)
              ++ [TickerStop]).
      apply tickerRunning_stopped. }
  split; [exact Hret |].
  intros pre t f x post Hw Hon. split.
  - eapply healthCheck_waiting_ticker. exact Hw.
  - pose proof (healthCheck_exit_at c connID pre x post t f Hw Hon) as He.
    eexists. split; [exact He |].
    apply (Hret _ _ _ He).
Qed.

Lemma ticker_stopped_on_every_exit_witness :
  let c := mkConnection
             (mkConnectionOptions (mkHealthCheckOptions Second Second 2))
             false false in
  tickerRunning (fst (healthCheck c 1 [Tick None; Quit])) = false /\
  tickerRunning
    (fst (healthCheck c 1 [Tick None; Tick (Some ErrInvalidConnectionState)]))
    = false /\
  tickerRunning
    (fst (healthCheck c 1 [Tick (Some (NewError "timeout"));
                           Tick (Some (NewError "timeout"))])) = false.
Proof.
  cbv zeta.
  pose (c := mkConnection
               (mkConnectionOptions (mkHealthCheckOptions Second Second 2))
               false false).
  split; [| split].
  - exact (proj2 (proj2 (proj2
      (proj1 (ticker_stopped_on_every_exit c 1)
         [Tick None; Quit] _ _ eq_refl)))).
  - exact (proj2 (proj2 (proj2
      (proj1 (ticker_stopped_on_every_exit c 1)
         [Tick None; Tick (Some ErrInvalidConnectionState)] _ _ eq_refl)))).
  - exact (proj2 (proj2 (proj2
      (proj1 (ticker_stopped_on_every_exit c 1)
         [Tick (Some (NewError "timeout")); Tick (Some (NewError "timeout"))]
         _ _ eq_refl)))).
Defined.

(** ** The counter and the streak *)

Lemma trailingFailures_snoc :
  forall outs o,
    trailingFailures (outs ++ [o]) =
    if isFailure o then S (trailingFailures outs) else O.
Proof.
  intros outs o. unfold trailingFailures.
  rewrite rev_app_distr. reflexivity.
Qed.

Lemma streakFrom_snoc :
  forall k outs o,
    streakFrom k (outs ++ [o]) =
    if isFailure o then streakFrom k outs + 1 else 0.
Proof.
  intros k outs o. unfold streakFrom. rewrite fold_left_app. reflexivity.
Qed.

Lemma streakFrom_trailing :
  forall outs, streakFrom 0 outs = Z.of_nat (trailingFailures outs).
Proof.
  induction outs as [| o outs IH] using rev_ind.
  - reflexivity.
  - rewrite streakFrom_snoc, trailingFailures_snoc, IH.
    destruct (isFailure o); lia.
Qed.

Lemma isFailure_some :
  forall err,
    err <> ErrInvalidConnectionState -> isFailure (Some err) = true.
Proof.
  intros err Hne. cbn. rewrite error_eqb_sentinel_false by assumption.
  reflexivity.
Qed.

Section Counter.

Variable c : Connection.
Variable connID : Z.

Local Abbreviation hco := (HealthChecks (opts c)).

Hypothesis threshold_is_int : isInt (FailuresToClose hco).

(** At every wait the counter is the trailing run of failures; it is
    below the largest [int], so that the increment that follows cannot
    wrap around, and unless it is zero it is below the threshold. *)
Lemma healthCheck_waiting_counter :
  forall outs tr f,
    healthCheck c connID (map Tick outs) = (tr, Waiting f) ->
    consecutiveFailures f = Z.of_nat (trailingFailures outs) /\
    0 <= consecutiveFailures f < maxInt /\
    (consecutiveFailures f = 0 \/
     consecutiveFailures f < FailuresToClose hco).
Proof.
  intros outs tr f H.
  apply healthCheck_waiting_inv in H.
  destruct H as (_ & t & Hl & _).
  destruct threshold_is_int as [_ Hmax].
  assert (H0 : 0 <= consecutiveFailures frame1 < maxInt).
  { cbn. unfold maxInt, intSize. lia. }
  destruct (loop_waiting_counter (HealthChecks (opts c)) Hmax
              outs frame1 t f H0 (or_introl eq_refl) Hl)
    as (Hcf & Hr & Hb).
  split; [| split; assumption].
  rewrite Hcf. cbn [frame1 consecutiveFailures].
  apply streakFrom_trailing.
Qed.

Lemma healthCheck_next_failure :
  forall outs tr f err,
    healthCheck c connID (map Tick outs) = (tr, Waiting f) ->
    err <> ErrInvalidConnectionState ->
    wrapInt (consecutiveFailures f + 1) = consecutiveFailures f + 1 /\
    consecutiveFailures f + 1 =
      Z.of_nat (trailingFailures (outs ++ [Some err])) /\
    (0 < FailuresToClose hco ->
     FailuresToClose hco <= consecutiveFailures f + 1 ->
     consecutiveFailures f + 1 = FailuresToClose hco).
Proof.
  intros outs tr f err H Hne.
  destruct (healthCheck_waiting_counter _ _ _ H) as (Hcf & Hr & Hb).
  split; [| split].
  - apply wrapInt_id. unfold isInt, minInt, maxInt, intSize in *. lia.
  - rewrite trailingFailures_snoc, isFailure_some by assumption. lia.
  - lia.
Qed.

End Counter.

(** Successful probes keep the loop going, the counter at zero. *)
Lemma loop_successes :
  forall hco n f,
    consecutiveFailures f = 0 ->
    exists t f',
      loop hco (repeat (Tick None) n) f = (t, f', false) /\
      consecutiveFailures f' = 0.
Proof.
  induction n as [| n IH]; intros f Hf.
  - exists [], f. split; [reflexivity | assumption].
  - cbn [repeat]. rewrite loop_cons, iteration_success.
    destruct (IH (withFailures 0 (probing f)) eq_refl)
      as (t & f' & Hl & Hf').
    rewrite Hl. eexists _, f'. split; [reflexivity | assumption].
Qed.

(** ** The claims on the run loop *)

(** C9.  The connection identifier has no part in what [healthCheck]
    does: two runs that differ in it alone make the same calls and end in
    the same way with the same frame. *)
Theorem connID_has_no_effect :
  forall c connID1 connID2 events,
    healthCheck c connID1 events = healthCheck c connID2 events.
Proof.
  intros c connID1 connID2 events. rewrite !healthCheck_eq. reflexivity.
Qed.

(** C4.  In whatever state the loop is waiting, a probe that answers
    [ErrInvalidConnectionState] makes [healthCheck] return at once,
    whatever events follow: the counter is what it was, and after the
    ping nothing is called but the deferred releases: no error report and
    no close, then or before.  The pass itself does so from every frame,
    reached or not. *)
Theorem sentinel_exits_quietly :
  forall c connID pre t f post,
    healthCheck c connID pre = (t, Waiting f) ->
    let hco := HealthChecks (opts c) in
    let f' := probing f in
    let rest := probeCalls hco f ++ deferred f' in
    healthCheck c connID
      (pre ++ Tick (Some ErrInvalidConnectionState) :: post) =
      (t ++ rest, Returned f') /\
    consecutiveFailures f' = consecutiveFailures f /\
    Forall (fun d => isRelease d = true) (deferred f') /\
    count isConnectionError rest = 0%nat /\
    count isConnClose (t ++ rest) = 0%nat /\
    (forall f0,
        loop hco (Tick (Some ErrInvalidConnectionState) :: post) f0 =
        (probeCalls hco f0, probing f0, true)).
Proof.
  intros c connID pre t f post Hw hco f' rest.
  pose proof (healthCheck_exit_at c connID pre BySentinel post t f Hw I)
    as He.
  cbn [exitEvent exitCalls exitFrame] in He.
  apply healthCheck_waiting_shape in Hw.
  destruct Hw as (t1 & -> & Ht1 & _ & _ & Hd & _).
  assert (Hrel : Forall (fun d => isRelease d = true) (deferred f')).
  { unfold f'. cbn [probing deferred]. rewrite Hd.
    constructor; [reflexivity |].
    apply Forall_app. split.
    - apply Forall_map, Forall_forall. reflexivity.
    - repeat constructor. }
  assert (Hnone : forall p,
             (forall d, isRelease d = true -> p d = false) ->
             count p (deferred f') = 0%nat).
  { intros p Hp. apply count_none.
    eapply Forall_impl; [| exact Hrel]. exact Hp. }
  split; [exact He |].
  split; [reflexivity |].
  split; [exact Hrel |].
  split; [| split].
  - unfold rest. rewrite count_app, Hnone; [reflexivity |].
    intros []; cbn; congruence.
  - unfold rest. rewrite !count_app, count_cons, Hnone.
    + destruct (Forall_probeCall_count _ Ht1) as (Hc & _).
      rewrite Hc. reflexivity.
    + intros []; cbn; congruence.
  - intros f0. rewrite loop_cons, iteration_sentinel. reflexivity.
Qed.

Lemma sentinel_exits_quietly_witness :
  let c := mkConnection
             (mkConnectionOptions (mkHealthCheckOptions Second Second 1))
             false false in
  snd (healthCheck c 1 [Tick (Some ErrInvalidConnectionState)]) =
    Returned (probing frame1) /\
  count isConnClose
    (fst (healthCheck c 1 [Tick (Some ErrInvalidConnectionState)])) = 0%nat.
Proof.
  cbv zeta.
  destruct (sentinel_exits_quietly
              (mkConnection
                 (mkConnectionOptions (mkHealthCheckOptions Second Second 1))
                 false false)
              1 [] _ _ [] eq_refl) as (He & _ & _ & _ & Hc & _).
  cbn [app] in He. rewrite He. split; [reflexivity | exact Hc].
Defined.

(** What is on the deferred stack of a waiting run are releases, and the
    run has closed nothing. *)
Lemma healthCheck_waiting_quiet :
  forall c connID events t f,
    healthCheck c connID events = (t, Waiting f) ->
    Forall (fun d => isRelease d = true) (deferred f) /\
    count isConnClose t = 0%nat.
Proof.
  intros c connID events t f Hw.
  apply healthCheck_waiting_shape in Hw.
  destruct Hw as (t1 & -> & Ht1 & _ & _ & Hd & _).
  split.
  - rewrite Hd. apply Forall_app. split.
    + apply Forall_map, Forall_forall. reflexivity.
    + repeat constructor.
  - rewrite count_cons.
    destruct (Forall_probeCall_count _ Ht1) as (Hc & _).
    rewrite Hc. reflexivity.
Qed.

Lemma count_releases :
  forall p ds,
    (forall d, isRelease d = true -> p d = false) ->
    Forall (fun d => isRelease d = true) ds ->
    count p ds = 0%nat.
Proof.
  intros p ds Hp Hds. apply count_none.
  eapply Forall_impl; [| exact Hds]. exact Hp.
Qed.

Lemma release_not_close :
  forall d, isRelease d = true -> isConnClose d = false.
Proof. intros []; cbn; congruence. Qed.

(** C2.  A run of [healthCheck] closes the connection at most once, and it
    does so exactly when a failure other than the sentinel takes the
    counter to [FailuresToClose]: the counter then is the length of the
    failure streak (and is [FailuresToClose] itself when that is
    positive), nothing was closed before, the close carries the reason
    "health check failure" and the failing error, and after it the
    function returns, running its deferred releases and nothing else. *)
Theorem close_iff_threshold_reached :
  forall c connID events tr o,
    isInt (FailuresToClose (HealthChecks (opts c))) ->
    healthCheck c connID events = (tr, o) ->
    (count isConnClose tr <= 1)%nat /\
    (count isConnClose tr = 1%nat <->
     exists outs err post t f,
       thresholdReached c connID events outs err post t f) /\
    (forall outs err post t f,
        thresholdReached c connID events outs err post t f ->
        consecutiveFailures f + 1 =
          Z.of_nat (trailingFailures (outs ++ [Some err])) /\
        (0 < FailuresToClose (HealthChecks (opts c)) ->
         consecutiveFailures f + 1 =
           FailuresToClose (HealthChecks (opts c))) /\
        count isConnClose t = 0%nat /\
        tr = t ++ probeCalls (HealthChecks (opts c)) f
               ++ [reportCall err;
                   ConnClose [mkLogField "reason" "health check failure";
                              ErrField err]]
               ++ deferred (probing f) /\
        Forall (fun d => isRelease d = true) (deferred (probing f)) /\
        o = Returned
              (withFailures (consecutiveFailures f + 1) (probing f))).
Proof.
  intros c connID events tr o Hint H.
  set (hco := HealthChecks (opts c)) in *.
  assert (Hfwd : forall outs err post t f,
             thresholdReached c connID events outs err post t f ->
             consecutiveFailures f + 1 =
               Z.of_nat (trailingFailures (outs ++ [Some err])) /\
             (0 < FailuresToClose hco ->
              consecutiveFailures f + 1 = FailuresToClose hco) /\
             count isConnClose t = 0%nat /\
             tr = t ++ probeCalls hco f
                    ++ [reportCall err; closeCall err]
                    ++ deferred (probing f) /\
             Forall (fun d => isRelease d = true) (deferred (probing f)) /\
             o = Returned
                   (withFailures (consecutiveFailures f + 1) (probing f))).
  { intros outs err post t f (Hev & Hw & Hne & Hle).
    destruct (healthCheck_next_failure c connID Hint outs t f err Hw Hne)
      as (Hwrap & Hstreak & Heq).
    assert (Hon : exitOn hco f (ByThreshold err)).
    { cbn. rewrite Hwrap. auto. }
    pose proof (healthCheck_exit_at c connID (map Tick outs)
                  (ByThreshold err) post t f Hw Hon) as He.
    cbn [exitEvent exitCalls exitFrame] in He.
    rewrite Hwrap, <- Hev, H in He. injection He as -> ->.
    destruct (healthCheck_waiting_quiet _ _ _ _ _ Hw) as (Hrel & Hnc).
    split; [exact Hstreak |].
    split; [intros Hpos; apply Heq; assumption |].
    split; [exact Hnc |].
    split; [reflexivity |].
    split; [| reflexivity].
    cbn [probing deferred]. constructor; [reflexivity | exact Hrel]. }
  split; [| split; [split |]].
  - (* at most one close *)
    destruct o as [f | f' |].
    + apply healthCheck_waiting_quiet in H. destruct H as [_ ->]. lia.
    + apply healthCheck_returned_exit in H.
      destruct H as (outs & x & post & t & f & -> & Hw & Hon & -> & ->).
      destruct (healthCheck_waiting_quiet _ _ _ _ _ Hw) as (Hrel & Hnc).
      destruct (exitFrame_deferred f x) as (cs & Hcs & Hcancel).
      rewrite Hcs, !count_app, Hnc.
      rewrite (count_releases isConnClose (deferred f) release_not_close Hrel).
      rewrite (count_none isConnClose cs).
      * destruct x; cbn; lia.
      * eapply Forall_impl; [| exact Hcancel]. intros []; cbn; congruence.
    + apply healthCheck_panicked_inv in H. destruct H as [_ ->].
      cbn. lia.
  - (* a close: the threshold was reached *)
    intros Hone.
    destruct o as [f | f' |].
    + apply healthCheck_waiting_quiet in H. destruct H as [_ Hz].
      rewrite Hz in Hone. discriminate.
    + apply healthCheck_returned_exit in H.
      destruct H as (outs & x & post & t & f & -> & Hw & Hon & -> & ->).
      destruct (healthCheck_waiting_quiet _ _ _ _ _ Hw) as (Hrel & Hnc).
      destruct (exitFrame_deferred f x) as (cs & Hcs & Hcancel).
      rewrite Hcs, !count_app, Hnc in Hone.
      rewrite (count_releases isConnClose (deferred f) release_not_close Hrel)
        in Hone.
      rewrite (count_none isConnClose cs) in Hone.
      2:{ eapply Forall_impl; [| exact Hcancel].
          intros []; cbn; congruence. }
      destruct x as [| | err]; cbn in Hone; try discriminate.
      destruct Hon as [Hne Hle].
      destruct (healthCheck_next_failure c connID Hint outs t f err Hw Hne)
        as (Hwrap & _).
      rewrite Hwrap in Hle.
      exists outs, err, post, t, f. repeat split; assumption.
    + apply healthCheck_panicked_inv in H. destruct H as [_ ->].
      discriminate.
  - (* the threshold reached: a close *)
    intros (outs & err & post & t & f & Hr).
    destruct (Hfwd _ _ _ _ _ Hr) as (_ & _ & Hnc & -> & Hrel & _).
    rewrite !count_app, Hnc.
    rewrite (count_releases isConnClose _ release_not_close Hrel).
    reflexivity.
  - exact Hfwd.
Qed.

Lemma close_iff_threshold_reached_witness :
  let c := mkConnection
             (mkConnectionOptions (mkHealthCheckOptions Second Second 2))
             false false in
  let events := [Tick (Some (NewError "timeout"));
                 Tick (Some (NewError "reset")); Tick None] in
  (count isConnClose (fst (healthCheck c 1 events)) <= 1)%nat /\
  count isConnClose (fst (healthCheck c 1 events)) = 1%nat.
Proof.
  cbv zeta.
  assert (Hint : isInt 2) by (unfold isInt, minInt, maxInt, intSize; lia).
  destruct (close_iff_threshold_reached
              (mkConnection
                 (mkConnectionOptions (mkHealthCheckOptions Second Second 2))
                 false false)
              1
              [Tick (Some (NewError "timeout"));
               Tick (Some (NewError "reset")); Tick None]
              _ _ Hint eq_refl) as (Hle & Hiff & _).
  split; [exact Hle |].
  apply Hiff.
  exists [Some (NewError "timeout")], (NewError "reset"), [Tick None].
  eexists _, _. unfold thresholdReached.
  split; [reflexivity |].
  split; [reflexivity |].
  split; [discriminate |].
  cbn. lia.
Defined.

(** ** Staying in the loop *)

Lemma healthCheck_continue :
  forall c connID pre e t f t2 f2,
    healthCheck c connID pre = (t, Waiting f) ->
    iteration (HealthChecks (opts c)) e f = (t2, f2, Continue) ->
    healthCheck c connID (pre ++ [e]) = (t ++ t2, Waiting f2).
Proof.
  intros c connID pre e t f t2 f2 Hw Hit.
  apply healthCheck_waiting_inv in Hw.
  destruct Hw as (Hi & t1 & Hl & ->).
  rewrite healthCheck_eq, loop_app, Hl, loop_cons, Hit, loop_nil.
  destruct (Z.leb_spec (Interval (HealthChecks (opts c))) 0); [lia |].
  rewrite app_nil_r. reflexivity.
Qed.

(** A successful probe leaves the goroutine waiting with the counter at
    zero. *)
Lemma healthCheck_success_resets :
  forall c connID pre t f,
    healthCheck c connID pre = (t, Waiting f) ->
    healthCheck c connID (pre ++ [Tick None]) =
    (t ++ probeCalls (HealthChecks (opts c)) f,
     Waiting (withFailures 0 (probing f))).
Proof.
  intros c connID pre t f Hw.
  apply (healthCheck_continue c connID pre (Tick None) t f); [exact Hw |].
  apply iteration_success.
Qed.

Lemma leadingRun_le_length :
  forall (A : Type) (p : A -> bool) (l : list A),
    (leadingRun p l <= List.length l)%nat.
Proof.
  intros A p l. induction l as [| x l IH]; cbn.
  - lia.
  - destruct (p x); lia.
Qed.

Lemma trailingFailures_le_length :
  forall outs, (trailingFailures outs <= List.length outs)%nat.
Proof.
  intros outs. unfold trailingFailures.
  rewrite <- (length_rev outs). apply leadingRun_le_length.
Qed.

(** With a threshold above the number of probes, and no sentinel among
    their answers, the goroutine is still waiting after them. *)
Lemma healthCheck_below_threshold :
  forall c connID outs,
    0 < Interval (HealthChecks (opts c)) ->
    isInt (FailuresToClose (HealthChecks (opts c))) ->
    Forall (fun o => isSentinel o = false) outs ->
    Z.of_nat (List.length outs) < FailuresToClose (HealthChecks (opts c)) ->
    exists tr f, healthCheck c connID (map Tick outs) = (tr, Waiting f).
Proof.
  intros c connID outs Hi Hint.
  induction outs as [| o outs IH] using rev_ind; intros Hs Hlen.
  - rewrite healthCheck_eq.
    destruct (Z.leb_spec (Interval (HealthChecks (opts c))) 0); [lia |].
    cbn. eauto.
  - apply Forall_app in Hs. destruct Hs as [Hs Ho].
    inversion Ho as [| ? ? Hso _]; subst.
    rewrite length_app in Hlen. cbn [List.length] in Hlen.
    destruct (IH Hs ltac:(lia)) as (tr & f & Hw).
    rewrite map_app. cbn [map].
    destruct o as [err |].
    + assert (Hne : err <> ErrInvalidConnectionState).
      { intros ->. discriminate. }
      destruct (healthCheck_next_failure c connID Hint outs tr f err Hw Hne)
        as (Hwrap & Hstreak & _).
      pose proof (trailingFailures_le_length (outs ++ [Some err])) as Hle.
      rewrite length_app in Hle. cbn [List.length] in Hle.
      eexists _, _.
      apply (healthCheck_continue c connID _ _ tr f); [exact Hw |].
      rewrite (iteration_failure _ f err Hne). cbv zeta. rewrite Hwrap.
      destruct (Z.leb_spec (FailuresToClose (HealthChecks (opts c)))
                  (consecutiveFailures f + 1)); [lia | reflexivity].
    + eexists _, _. apply healthCheck_success_resets. exact Hw.
Qed.

(** The scenario of the specification: threshold 3, outcomes fail, fail,
    success, fail, fail, fail, whatever the five errors, the interval and
    the timeout. *)
Lemma healthCheck_scenario :
  forall i d connID e1 e2 e3 e4 e5,
    0 < i ->
    e1 <> ErrInvalidConnectionState ->
    e2 <> ErrInvalidConnectionState ->
    e3 <> ErrInvalidConnectionState ->
    e4 <> ErrInvalidConnectionState ->
    e5 <> ErrInvalidConnectionState ->
    let c := mkConnection
               (mkConnectionOptions (mkHealthCheckOptions i d 3))
               false false in
    let outs := [Some e1; Some e2; None; Some e3; Some e4; Some e5] in
    counterPath c connID outs =
      [Some 1; Some 2; Some 0; Some 1; Some 2; Some 3] /\
    count isConnClose (fst (healthCheck c connID (map Tick (firstn 5 outs))))
      = 0%nat /\
    count isConnClose (fst (healthCheck c connID (map Tick outs))) = 1%nat /\
    exists t1 t2,
      fst (healthCheck c connID (map Tick outs)) =
        t1 ++ closeCall e5 :: t2 /\
      count isPing t1 = 6%nat /\ count isPing t2 = 0%nat.
Proof.
  intros i d connID e1 e2 e3 e4 e5 Hi H1 H2 H3 H4 H5 c outs.
  assert (Hleb : (i <=? 0) = false) by (apply Z.leb_gt; exact Hi).
  unfold counterPath, counterAfter, outs, c.
  cbn [List.length seq map firstn].
  rewrite !healthCheck_eq.
  cbn [opts HealthChecks Interval]. rewrite Hleb.
  destruct e1; try congruence;
    destruct e2; try congruence;
    destruct e3; try congruence;
    destruct e4; try congruence;
    destruct e5; try congruence;
    (split; [vm_compute; reflexivity |];
     split; [vm_compute; reflexivity |];
     split; [vm_compute; reflexivity |];
     eexists (_ :: _ :: _ :: _ :: _ :: _ :: _ :: _ :: _ :: _ ::
              _ :: _ :: _ :: _ :: _ :: _ :: _ :: [_]), _;
     split; [vm_compute; reflexivity | split; reflexivity]).
Qed.

(** C3.  While the loop has not been left, the counter is the length of
    the trailing run of failures of the outcomes processed so far: the
    failures since the most recent success, or since the start.  One more
    successful probe leaves the goroutine waiting with the counter at 0.
    A threshold above the number of probes keeps the loop going as long
    as no probe answers the sentinel.  With a threshold of 3 and the
    outcomes fail, fail, success, fail, fail, fail the counter goes
    through 1, 2, 0, 1, 2, 3 and the connection is closed once, after the
    sixth ping and not before. *)
Theorem counter_is_trailing_failure_run :
  (forall c connID outs tr f,
      isInt (FailuresToClose (HealthChecks (opts c))) ->
      healthCheck c connID (map Tick outs) = (tr, Waiting f) ->
      consecutiveFailures f = Z.of_nat (trailingFailures outs) /\
      exists tr' f',
        healthCheck c connID (map Tick (outs ++ [None])) =
          (tr', Waiting f') /\
        consecutiveFailures f' = 0) /\
  (forall c connID outs,
      0 < Interval (HealthChecks (opts c)) ->
      isInt (FailuresToClose (HealthChecks (opts c))) ->
      Forall (fun o => isSentinel o = false) outs ->
      Z.of_nat (List.length outs)
        < FailuresToClose (HealthChecks (opts c)) ->
      exists tr f,
        healthCheck c connID (map Tick outs) = (tr, Waiting f) /\
        consecutiveFailures f = Z.of_nat (trailingFailures outs)) /\
  (forall i d connID e1 e2 e3 e4 e5,
      0 < i ->
      e1 <> ErrInvalidConnectionState ->
      e2 <> ErrInvalidConnectionState ->
      e3 <> ErrInvalidConnectionState ->
      e4 <> ErrInvalidConnectionState ->
      e5 <> ErrInvalidConnectionState ->
      let c := mkConnection
                 (mkConnectionOptions (mkHealthCheckOptions i d 3))
                 false false in
      let outs := [Some e1; Some e2; None; Some e3; Some e4; Some e5] in
      counterPath c connID outs =
        [Some 1; Some 2; Some 0; Some 1; Some 2; Some 3] /\
      count isConnClose
        (fst (healthCheck c connID (map Tick (firstn 5 outs)))) = 0%nat /\
      count isConnClose (fst (healthCheck c connID (map Tick outs)))
        = 1%nat /\
      exists t1 t2,
        fst (healthCheck c connID (map Tick outs)) =
          t1 ++ closeCall e5 :: t2 /\
        count isPing t1 = 6%nat /\ count isPing t2 = 0%nat).
Proof.
  split; [| split].
  - intros c connID outs tr f Hint Hw.
    destruct (healthCheck_waiting_counter c connID Hint outs tr f Hw)
      as (Hcf & _).
    split; [exact Hcf |].
    rewrite map_app. cbn [map].
    eexists _, _. split.
    + apply healthCheck_success_resets. exact Hw.
    + reflexivity.
  - intros c connID outs Hi Hint Hs Hlen.
    destruct (healthCheck_below_threshold c connID outs Hi Hint Hs Hlen)
      as (tr & f & Hw).
    exists tr, f. split; [exact Hw |].
    apply (healthCheck_waiting_counter c connID Hint outs tr f Hw).
  - exact healthCheck_scenario.
Qed.

Lemma counter_is_trailing_failure_run_witness :
  let c := mkConnection
             (mkConnectionOptions (mkHealthCheckOptions Second Second 5))
             false false in
  let outs := [Some (NewError "timeout"); None;
               Some (NewError "timeout"); Some (NewError "reset")] in
  (exists tr f,
      healthCheck c 1 (map Tick outs) = (tr, Waiting f) /\
      consecutiveFailures f = 2) /\
  counterPath
    (mkConnection (mkConnectionOptions (mkHealthCheckOptions 1 1 3))
       false false) 1
    [Some (NewError "a"); Some (NewError "b"); None;
     Some (NewError "c"); Some (NewError "d"); Some (NewError "e")] =
  [Some 1; Some 2; Some 0; Some 1; Some 2; Some 3].
Proof.
  cbv zeta.
  assert (Hint : isInt 5) by (unfold isInt, minInt, maxInt, intSize; lia).
  split.
  - destruct (proj1 (proj2 counter_is_trailing_failure_run)
                (mkConnection
                   (mkConnectionOptions (mkHealthCheckOptions Second Second 5))
                   false false)
                1
                [Some (NewError "timeout"); None;
                 Some (NewError "timeout"); Some (NewError "reset")])
      as (tr & f & Hw & Hcf).
    + reflexivity.
    + exact Hint.
    + repeat constructor.
    + reflexivity.
    + exists tr, f. split; [exact Hw | exact Hcf].
  - refine (proj1 (proj2 (proj2 counter_is_trailing_failure_run)
                     1 1 1 (NewError "a") (NewError "b") (NewError "c")
                     (NewError "d") (NewError "e") _ _ _ _ _ _));
      [reflexivity | discriminate ..].
Defined.

(** C10.  [healthCheck] takes the threshold from the options stored in
    the connection as they are.  When the stored [FailuresToClose] is zero
    or negative, the first probe failure other than the sentinel, after
    any number of successes, closes the connection with the counter at 1;
    with the defaults resolved in the stored options (zero becomes 5) the
    same failure leaves the goroutine waiting. *)
Theorem unresolved_threshold_closes_on_first_failure :
  forall c connID n err post,
    0 < Interval (HealthChecks (opts c)) ->
    FailuresToClose (HealthChecks (opts c)) <= 0 ->
    err <> ErrInvalidConnectionState ->
    let hco := HealthChecks (opts c) in
    let successes := repeat (Tick None) n in
    exists t f,
      healthCheck c connID successes = (t, Waiting f) /\
      healthCheck c connID (successes ++ Tick (Some err) :: post) =
        (t ++ probeCalls hco f ++ [reportCall err; closeCall err]
           ++ deferred (probing f),
         Returned (withFailures 1 (probing f))) /\
      count isConnClose
        (fst (healthCheck c connID (successes ++ Tick (Some err) :: post)))
        = 1%nat /\
      (FailuresToClose hco = 0 ->
       exists t' f',
         healthCheck (withHealthChecks c (withDefaults hco)) connID
           (successes ++ [Tick (Some err)]) = (t', Waiting f') /\
         consecutiveFailures f' = 1).
Proof.
  intros c connID n err post Hi Hle Hne. cbv zeta.
  set (hco := HealthChecks (opts c)) in *.
  set (successes := repeat (Tick None) n).
  assert (Hone : wrapInt (0 + 1) = 1) by reflexivity.
  destruct (loop_successes hco n frame1 eq_refl) as (t & f & Hl & Hcf).
  pose proof (healthCheck_waiting_intro c connID _ _ _ Hi Hl) as Hw.
  fold hco successes in Hw.
  assert (Hon : exitOn hco f (ByThreshold err)).
  { cbn [exitOn]. rewrite Hcf, Hone. split; [assumption | lia]. }
  pose proof (healthCheck_exit_at c connID successes (ByThreshold err)
                post _ f Hw Hon) as He.
  cbn [exitEvent exitCalls exitFrame] in He.
  rewrite Hcf, Hone in He. fold hco in He.
  rewrite <- app_assoc in He.
  eexists _, f. split; [exact Hw |].
  split; [exact He |].
  split.
  - rewrite He. cbn [fst].
    destruct (healthCheck_waiting_quiet _ _ _ _ _ Hw) as (Hrel & Hnc).
    assert (Hrel' : Forall (fun d => isRelease d = true)
                      (Cancel (contexts f) :: deferred f)).
    { constructor; [reflexivity | exact Hrel]. }
    cbn [withFailures probing deferred].
    rewrite !count_app, Hnc.
    rewrite (count_releases isConnClose _ release_not_close Hrel').
    reflexivity.
  - intros Hzero.
    set (c' := withHealthChecks c (withDefaults hco)).
    assert (Hi' : 0 < Interval (HealthChecks (opts c'))).
    { cbn. rewrite withDefaults_Interval. exact Hi. }
    assert (Hn' : FailuresToClose (HealthChecks (opts c')) = 5).
    { cbn. rewrite withDefaults_FailuresToClose, Hzero. reflexivity. }
    destruct (loop_successes (HealthChecks (opts c')) n frame1 eq_refl)
      as (t' & f' & Hl' & Hcf').
    pose proof (healthCheck_waiting_intro c' connID _ _ _ Hi' Hl') as Hw'.
    eexists _, _. split.
    + eapply healthCheck_continue; [exact Hw' |].
      rewrite (iteration_failure _ f' err Hne). cbv zeta.
      rewrite Hcf', Hone, Hn'. reflexivity.
    + reflexivity.
Qed.

Lemma unresolved_threshold_closes_on_first_failure_witness :
  let c := mkConnection
             (mkConnectionOptions (mkHealthCheckOptions Second 0 0))
             false false in
  count isConnClose
    (fst (healthCheck c 1
            (repeat (Tick None) 2
             ++ Tick (Some (NewError "timeout")) :: [Tick None]))) = 1%nat.
Proof.
  cbv zeta.
  destruct (unresolved_threshold_closes_on_first_failure
              (mkConnection
                 (mkConnectionOptions (mkHealthCheckOptions Second 0 0))
                 false false)
              1 2%nat (NewError "timeout") [Tick None])
    as (t & f & _ & _ & Hc & _).
  - reflexivity.
  - cbn. lia.
  - discriminate.
  - exact Hc.
Defined.

(** ** stophealthCheck *)

Lemma stophealthCheck_first :
  forall c,
    healthCheckStopped c = false ->
    healthCheckQuit c = false ->
    stophealthCheck c = (stopCalls, Some (stoppedConnection c)).
Proof.
  intros c Hs Hq. unfold stophealthCheck, Swap, closeQuit.
  rewrite Hs. cbn. rewrite Hq. reflexivity.
Qed.

(** Every step of a caller that has not returned takes it nearer to its
    return: a caller makes at most three steps. *)
Lemma stopStep_progress :
  forall p w,
    p <> AtEnd ->
    (stepsLeft (fst (stopStep p w)) < stepsLeft p)%nat.
Proof.
  intros [| | |] [[o s q] t pan] Hp; cbn.
  - destruct s; cbn; lia.
  - lia.
  - destruct q; cbn; lia.
  - contradiction.
Qed.

(** On a stopped connection the call does nothing: no call is made and
    the connection is what it was. *)
Lemma stophealthCheck_again :
  forall c,
    healthCheckStopped c = true ->
    stophealthCheck c = ([], Some c).
Proof.
  intros [o s q] Hs. cbn in Hs. subst s. reflexivity.
Qed.

Lemma stopTimes_stopped :
  forall n c,
    healthCheckStopped c = true ->
    stopTimes n c = ([], Some c).
Proof.
  induction n as [| n IH]; intros c Hs.
  - reflexivity.
  - cbn [stopTimes]. rewrite (stophealthCheck_again c Hs), (IH c Hs).
    reflexivity.
Qed.

Lemma stopTimes_fresh :
  forall n c,
    healthCheckStopped c = false ->
    healthCheckQuit c = false ->
    stopTimes (S n) c = (stopCalls, Some (stoppedConnection c)).
Proof.
  intros n c Hs Hq. cbn [stopTimes].
  rewrite (stophealthCheck_first c Hs Hq).
  rewrite stopTimes_stopped by reflexivity.
  rewrite app_nil_r. reflexivity.
Qed.

(** The function is the sequence of its atomic steps. *)
Lemma stophealthCheck_steps :
  forall c,
    let '(p1, w1) := stopStep AtSwap (world0 c) in
    let '(p2, w2) := stopStep p1 w1 in
    let '(p3, w3) := stopStep p2 w2 in
    p3 = AtEnd /\
    fst (stophealthCheck c) = out w3 /\
    snd (stophealthCheck c) = if panicked w3 then None else Some (conn w3).
Proof.
  intros [o [|] [|]]; cbn; repeat split.
Qed.

(** *** Any number of callers, in any interleaving *)

Lemma countPc_setNth :
  forall q ps i p p',
    nth_error ps i = Some p ->
    (countPc q (setNth i p' ps) + (if q p then 1 else 0) =
     countPc q ps + (if q p' then 1 else 0))%nat.
Proof.
  intros q. unfold countPc.
  induction ps as [| p0 ps IH]; intros i p p' Hn.
  - destruct i; discriminate.
  - destruct i as [| i]; cbn in Hn.
    + injection Hn as ->. cbn. destruct (q p), (q p'); cbn; lia.
    + cbn. specialize (IH i p p' Hn). destruct (q p0); cbn; lia.
Qed.

Lemma length_setNth :
  forall (A : Type) (l : list A) i x,
    List.length (setNth i x l) = List.length l.
Proof.
  intros A. induction l as [| y l IH]; intros i x.
  - reflexivity.
  - destruct i; cbn; [reflexivity | rewrite IH; reflexivity].
Qed.

Lemma setNth_same :
  forall (A : Type) (l : list A) i x,
    nth_error l i = Some x -> setNth i x l = l.
Proof.
  intros A. induction l as [| y l IH]; intros i x Hn.
  - reflexivity.
  - destruct i as [| i]; cbn in *.
    + injection Hn as ->. reflexivity.
    + rewrite (IH i x Hn). reflexivity.
Qed.

Lemma countPc_all_atSwap :
  forall q ps,
    q AtSwap = false ->
    Forall (fun p => p = AtSwap) ps ->
    countPc q ps = 0%nat.
Proof.
  intros q ps Hq H. unfold countPc.
  induction H as [| p ps -> _ IH]; cbn.
  - reflexivity.
  - rewrite Hq. exact IH.
Qed.

Lemma countPc_zero :
  forall q ps p i,
    countPc q ps = 0%nat -> nth_error ps i = Some p -> q p = false.
Proof.
  intros q. unfold countPc.
  induction ps as [| p0 ps IH]; intros p i Hc Hn.
  - destruct i; discriminate.
  - cbn in Hc. destruct i as [| i]; cbn in Hn.
    + injection Hn as ->. destruct (q p); [discriminate | reflexivity].
    + destruct (q p0); [discriminate |]. eapply IH; eassumption.
Qed.

Lemma countPc_all_atEnd :
  forall q ps,
    q AtEnd = false ->
    Forall (fun p => p = AtEnd) ps ->
    countPc q ps = 0%nat.
Proof.
  intros q ps Hq H. unfold countPc.
  induction H as [| p ps -> _ IH]; cbn.
  - reflexivity.
  - rewrite Hq. exact IH.
Qed.

Lemma Forall_nth_error :
  forall (A : Type) (P : A -> Prop) (l : list A) i x,
    Forall P l -> nth_error l i = Some x -> P x.
Proof.
  intros A P l i x H Hn.
  rewrite Forall_forall in H. apply H.
  eapply nth_error_In. exact Hn.
Qed.

(** Every atomic step of every caller keeps the pool in one of the states
    of [poolInvariant]. *)
Lemma stopStep_invariant :
  forall o n ps w i p,
    poolInvariant o n ps w ->
    nth_error ps i = Some p ->
    poolInvariant o n (setNth i (fst (stopStep p w)) ps)
      (snd (stopStep p w)).
Proof.
  intros o n ps [[o' s q] t pan] i p (Hlen & Hpan & Hopts & Hph) Hn.
  cbn [conn out panicked opts healthCheckStopped healthCheckQuit] in *.
  subst o' pan.
  pose proof (countPc_setNth atDebug ps i p) as Hd.
  pose proof (countPc_setNth atClose ps i p) as Hc.
  destruct s.
  - (* some caller has won the swap *)
    destruct p.
    + (* a later swap reads [true] *)
      specialize (Hd AtEnd Hn). specialize (Hc AtEnd Hn). cbn in Hd, Hc.
      unfold poolInvariant. cbn.
      rewrite length_setNth.
      repeat split; auto.
      destruct Hph as [(H1 & H2 & H3 & H4) | [(H1 & H2 & H3 & H4) |
                                              (H1 & H2 & H3 & H4)]];
        [left | right; left | right; right];
        repeat split; auto; lia.
    + (* the winner logs *)
      specialize (Hd AtClose Hn). specialize (Hc AtClose Hn). cbn in Hd, Hc.
      unfold poolInvariant. cbn.
      rewrite length_setNth.
      repeat split; auto.
      destruct Hph as [(H1 & H2 & H3 & H4) | [(H1 & H2 & H3 & H4) |
                                              (H1 & H2 & H3 & H4)]].
      * right; left. subst t. repeat split; auto; lia.
      * pose proof (countPc_zero atDebug ps _ _ H1 Hn). discriminate.
      * pose proof (countPc_zero atDebug ps _ _ H1 Hn). discriminate.
    + (* the winner closes the channel *)
      specialize (Hd AtEnd Hn). specialize (Hc AtEnd Hn). cbn in Hd, Hc.
      destruct Hph as [(H1 & H2 & H3 & H4) | [(H1 & H2 & H3 & H4) |
                                              (H1 & H2 & H3 & H4)]].
      * pose proof (countPc_zero atClose ps _ _ H2 Hn). discriminate.
      * subst q t. unfold poolInvariant. cbn.
        rewrite length_setNth.
        repeat split; auto.
        right; right. repeat split; auto; lia.
      * pose proof (countPc_zero atClose ps _ _ H2 Hn). discriminate.
    + (* a caller that has returned does not move *)
      cbn. rewrite (setNth_same _ ps i AtEnd Hn).
      unfold poolInvariant. cbn. auto.
  - (* no swap yet: the caller is at the swap, and wins it *)
    destruct Hph as (Hall & Ht & Hq).
    pose proof (Forall_nth_error _ _ _ _ _ Hall Hn) as Hp.
    cbv beta in Hp. subst p t q.
    specialize (Hd AtDebug Hn). specialize (Hc AtDebug Hn). cbn in Hd, Hc.
    rewrite (countPc_all_atSwap atDebug ps eq_refl Hall) in Hd.
    rewrite (countPc_all_atSwap atClose ps eq_refl Hall) in Hc.
    unfold poolInvariant. cbn.
    rewrite length_setNth.
    repeat split; auto.
    left. repeat split; auto; lia.
Qed.

Lemma runSchedule_invariant :
  forall o n sched ps w,
    poolInvariant o n ps w ->
    poolInvariant o n (fst (runSchedule sched ps w))
      (snd (runSchedule sched ps w)).
Proof.
  intros o n. induction sched as [| i sched IH]; intros ps w Hinv.
  - exact Hinv.
  - cbn [runSchedule].
    destruct (panicked w); [exact Hinv |].
    destruct (nth_error ps i) as [p |] eqn:Hn.
    + pose proof (stopStep_invariant o n ps w i p Hinv Hn) as Hstep.
      destruct (stopStep p w) as [p' w']. cbn [fst snd] in Hstep.
      apply IH. exact Hstep.
    + apply IH. exact Hinv.
Qed.

Lemma poolInvariant_start :
  forall c n,
    healthCheckStopped c = false ->
    healthCheckQuit c = false ->
    poolInvariant (opts c) n (repeat AtSwap n) (world0 c).
Proof.
  intros c n Hs Hq. unfold poolInvariant, world0. cbn.
  rewrite repeat_length, Hs.
  repeat split; auto.
  apply Forall_forall. intros p Hp. eapply repeat_spec. exact Hp.
Qed.

(** What the invariant says of the calls made so far and of a pool whose
    callers have all returned. *)
Lemma poolInvariant_out :
  forall o n ps w,
    poolInvariant o n ps w ->
    (count isChanClose (out w) <= 1)%nat /\
    count isConnClose (out w) = 0%nat /\
    ((1 <= n)%nat ->
     Forall (fun p => p = AtEnd) ps ->
     out w = stopCalls /\
     healthCheckStopped (conn w) = true /\
     healthCheckQuit (conn w) = true).
Proof.
  intros o n ps w (Hlen & Hpan & Hopts & Hph).
  destruct (healthCheckStopped (conn w)).
  - destruct Hph as [(H1 & H2 & H3 & H4) | [(H1 & H2 & H3 & H4) |
                                            (H1 & H2 & H3 & H4)]];
      rewrite H3; (split; [cbn; lia |]); (split; [reflexivity |]);
      intros Hn Hall.
    + rewrite (countPc_all_atEnd atDebug ps eq_refl Hall) in H1.
      discriminate.
    + rewrite (countPc_all_atEnd atClose ps eq_refl Hall) in H2.
      discriminate.
    + auto.
  - destruct Hph as (Hall & Ht & Hq). rewrite Ht.
    split; [cbn; lia |]. split; [reflexivity |].
    intros Hn Hend.
    destruct ps as [| p ps]; cbn in Hlen; [lia |].
    inversion Hall; inversion Hend; subst; discriminate.
Qed.

(** C5.  On a connection whose health checks have not been stopped, any
    number [n >= 1] of calls of [stophealthCheck] closes the quit channel
    once: the first call swaps the flag from [false] to [true], logs and
    closes the channel; every later call reads [true] and returns having
    called nothing and changed nothing; no call closes the connection.
    The same holds of [n] concurrent callers under every interleaving of
    their atomic steps: nobody panics on a closed channel, the channel is
    closed at most once at any moment and exactly once when all callers
    have returned. *)
Theorem stophealthCheck_one_shot :
  forall c n,
    healthCheckStopped c = false ->
    healthCheckQuit c = false ->
    (1 <= n)%nat ->
    stopTimes n c = (stopCalls, Some (stoppedConnection c)) /\
    count isChanClose (fst (stopTimes n c)) = 1%nat /\
    count isConnClose (fst (stopTimes n c)) = 0%nat /\
    (forall c',
        healthCheckStopped c' = true ->
        stophealthCheck c' = ([], Some c')) /\
    (forall k,
        stopTimes k (stoppedConnection c) =
        ([], Some (stoppedConnection c))) /\
    (forall sched,
        let ps := fst (runSchedule sched (repeat AtSwap n) (world0 c)) in
        let w := snd (runSchedule sched (repeat AtSwap n) (world0 c)) in
        panicked w = false /\
        (count isChanClose (out w) <= 1)%nat /\
        count isConnClose (out w) = 0%nat /\
        (Forall (fun p => p = AtEnd) ps ->
         out w = stopCalls /\ conn w = stoppedConnection c)).
Proof.
  intros c n Hs Hq Hn.
  destruct n as [| n]; [lia |].
  rewrite (stopTimes_fresh n c Hs Hq). cbn [fst].
  split; [reflexivity |].
  split; [reflexivity |].
  split; [reflexivity |].
  split; [exact stophealthCheck_again |].
  split; [intros k; apply stopTimes_stopped; reflexivity |].
  intros sched. cbv zeta.
  pose proof (runSchedule_invariant (opts c) (S n) sched _ _
                (poolInvariant_start c (S n) Hs Hq)) as Hinv.
  set (ps := fst (runSchedule sched (repeat AtSwap (S n)) (world0 c))) in *.
  set (w := snd (runSchedule sched (repeat AtSwap (S n)) (world0 c))) in *.
  destruct (poolInvariant_out _ _ _ _ Hinv) as (Hle & Hnc & Hend).
  destruct Hinv as (_ & Hpan & Hopts & _).
  split; [exact Hpan |].
  split; [exact Hle |].
  split; [exact Hnc |].
  intros Hall.
  destruct (Hend Hn Hall) as (Hout & Hst & Hqt).
  split; [exact Hout |].
  unfold stoppedConnection, setQuitClosed, setStopped. cbn.
  destruct (conn w) as [o s q]. cbn in *. subst. reflexivity.
Qed.

Lemma stophealthCheck_one_shot_witness :
  let c := mkConnection
             (mkConnectionOptions (mkHealthCheckOptions Second Second 5))
             false false in
  stopTimes 3 c = (stopCalls, Some (stoppedConnection c)) /\
  out (snd (runSchedule [0; 1; 0; 2; 1; 0; 2]%nat
              (repeat AtSwap 3) (world0 c))) = stopCalls.
Proof.
  cbv zeta.
  destruct (stophealthCheck_one_shot
              (mkConnection
                 (mkConnectionOptions (mkHealthCheckOptions Second Second 5))
                 false false)
              3%nat eq_refl eq_refl ltac:(lia))
    as (Hseq & _ & _ & _ & _ & Hconc).
  split; [exact Hseq |].
  destruct (Hconc [0; 1; 0; 2; 1; 0; 2]%nat) as (_ & _ & _ & Hend).
  apply Hend. repeat constructor.
Defined.

(** * Further properties of the code *)

(** ** withDefaults *)

(** X1.  [withDefaults] resolves in one go: its result has no zero left in
    [Timeout] and [FailuresToClose], health checks are enabled in it
    exactly when they were in the argument, and resolving it again changes
    nothing. *)
Theorem withDefaults_resolves_once :
  forall hco,
    resolved (withDefaults hco) /\
    enabled (withDefaults hco) = enabled hco /\
    withDefaults (withDefaults hco) = withDefaults hco.
Proof.
  intros hco. split; [| split].
  - unfold resolved.
    rewrite withDefaults_Timeout, withDefaults_FailuresToClose.
    unfold _defaultHealthCheckTimeout, _defaultHealthCheckFailuresToClose,
      Second.
    destruct (Z.eqb_spec (Timeout hco) 0);
      destruct (Z.eqb_spec (FailuresToClose hco) 0); split; lia.
  - unfold enabled. rewrite withDefaults_Interval. reflexivity.
  - apply withDefaults_idempotent.
Qed.

(** X2.  [withDefaults] returns its argument as it is exactly when neither
    [Timeout] nor [FailuresToClose] is zero; negative values are kept. *)
Theorem withDefaults_identity_iff :
  forall hco, withDefaults hco = hco <-> resolved hco.
Proof.
  intros hco. unfold resolved. split.
  - intros H.
    pose proof (withDefaults_Timeout hco) as Ht.
    pose proof (withDefaults_FailuresToClose hco) as Hn.
    rewrite H in Ht, Hn.
    unfold _defaultHealthCheckTimeout, _defaultHealthCheckFailuresToClose,
      Second in *.
    destruct (Z.eqb_spec (Timeout hco) 0);
      destruct (Z.eqb_spec (FailuresToClose hco) 0); split; lia.
  - intros [Ht Hn]. destruct hco as [i t n]. cbn in Ht, Hn.
    unfold withDefaults, setTimeout, setFailuresToClose. cbn.
    destruct (Z.eqb_spec t 0); [contradiction |]. cbn.
    destruct (Z.eqb_spec n 0); [contradiction |]. reflexivity.
Qed.

(** ** healthCheck: once returned, and the quit channel *)

Lemma loop_returned_app :
  forall hco events more f t f',
    loop hco events f = (t, f', true) ->
    loop hco (events ++ more) f = (t, f', true).
Proof.
  intros hco events more f t f' H. rewrite loop_app, H. reflexivity.
Qed.

(** X3.  A run that has returned or panicked is over: whatever the ticker, the
    quit channel and the pings would answer afterwards, no further call is
    made and the outcome stands. *)
Theorem healthCheck_returned_is_final :
  forall c connID events more tr o,
    healthCheck c connID events = (tr, o) ->
    (forall f, o <> Waiting f) ->
    healthCheck c connID (events ++ more) = (tr, o).
Proof.
  intros c connID events more tr o H Hnw.
  destruct o as [f | f |].
  - destruct (Hnw f eq_refl).
  - apply healthCheck_returned_inv in H.
    destruct H as (Hi & t & Hl & ->).
    rewrite healthCheck_eq, (loop_returned_app _ _ more _ _ _ Hl).
    destruct (Z.leb_spec (Interval (HealthChecks (opts c))) 0);
      [lia | reflexivity].
  - apply healthCheck_panicked_inv in H. destruct H as (Hi & ->).
    rewrite healthCheck_eq.
    destruct (Z.leb_spec (Interval (HealthChecks (opts c))) 0);
      [reflexivity | lia].
Qed.

Lemma healthCheck_returned_is_final_witness :
  let c := mkConnection
             (mkConnectionOptions (mkHealthCheckOptions Second Second 1))
             false false in
  healthCheck c 1 ([Tick (Some (NewError "timeout"))] ++ [Tick None; Quit])
  = healthCheck c 1 [Tick (Some (NewError "timeout"))].
Proof.
  cbv zeta.
  apply (healthCheck_returned_is_final
           (mkConnection
              (mkConnectionOptions (mkHealthCheckOptions Second Second 1))
              false false)
           1 [Tick (Some (NewError "timeout"))] [Tick None; Quit]).
  - vm_compute. reflexivity.
  - intros f. discriminate.
Defined.

(** X4.  When [select] takes the quit channel, in whatever state the loop is
    waiting, [healthCheck] returns with its counter as it was and calls
    nothing new but its deferred releases: no context is made, no ping, no
    report and no close. *)
Theorem quit_exits_without_probe :
  forall c connID pre t f post,
    healthCheck c connID pre = (t, Waiting f) ->
    healthCheck c connID (pre ++ Quit :: post) =
      (t ++ deferred f, Returned f) /\
    Forall (fun d => isRelease d = true) (deferred f) /\
    count isPing (t ++ deferred f) = count isPing t /\
    count isWithTimeout (t ++ deferred f) = count isWithTimeout t /\
    count isConnectionError (t ++ deferred f) = count isConnectionError t /\
    count isConnClose (t ++ deferred f) = 0%nat.
Proof.
  intros c connID pre t f post Hw.
  pose proof (healthCheck_exit_at c connID pre ByQuit post t f Hw I) as He.
  cbn [exitEvent exitCalls exitFrame app] in He.
  destruct (healthCheck_waiting_quiet _ _ _ _ _ Hw) as (Hrel & Hnc).
  assert (Hz : forall p,
             (forall d, isRelease d = true -> p d = false) ->
             count p (t ++ deferred f) = count p t).
  { intros p Hp. rewrite count_app, (count_releases p _ Hp Hrel). lia. }
  split; [exact He |].
  split; [exact Hrel |].
  split; [apply Hz; intros []; cbn; congruence |].
  split; [apply Hz; intros []; cbn; congruence |].
  split; [apply Hz; intros []; cbn; congruence |].
  rewrite Hz, Hnc; [reflexivity |]. exact release_not_close.
Qed.

Lemma quit_exits_without_probe_witness :
  let c := mkConnection
             (mkConnectionOptions (mkHealthCheckOptions Second Second 5))
             false false in
  healthCheck c 1 ([] ++ Quit :: [Tick None]) =
    ([NewTicker Second; TickerStop], Returned frame1).
Proof.
  cbv zeta.
  exact (proj1 (quit_exits_without_probe
                  (mkConnection
                     (mkConnectionOptions
                        (mkHealthCheckOptions Second Second 5))
                     false false)
                  1 [] _ _ [Tick None] eq_refl)).
Defined.

(** ** healthCheck: the calls of a run, one by one *)

Lemma loop_waiting_exact :
  forall hco outs f t f',
    loop hco (map Tick outs) f = (t, f', false) ->
    t = waitingTrace hco (contexts f) outs.
Proof.
  intros hco. induction outs as [| o outs IH]; intros f t f' H.
  - cbn [map] in H. rewrite loop_nil in H. injection H as <- <-.
    reflexivity.
  - cbn [map] in H. rewrite loop_cons in H.
    destruct (iteration hco (Tick o) f) as [[t0 f0] [|]] eqn:E;
      [| discriminate].
    destruct (loop hco (map Tick outs) f0) as [[t2 f2] r] eqn:L.
    injection H as <- <- ->.
    apply iteration_continue_inv in E.
    destruct E as (o' & [= <-] & _ & -> & -> & _).
    rewrite (IH _ _ _ L).
    cbn [waitingTrace withFailures probing contexts probeCalls app].
    reflexivity.
Qed.

Lemma filter_reportOf :
  forall p o,
    (forall site err, p (ConnectionError site err) = false) ->
    filter p (reportOf o) = [].
Proof.
  intros p [err |] Hp; cbn; [| reflexivity].
  unfold reportCall. rewrite Hp. reflexivity.
Qed.

Lemma probeStartsFrom_S :
  forall a n d,
    probeStartsFrom a (S n) d =
    probeStartsFrom a n d ++ [WithTimeout (a + n) d; Ping (a + n)].
Proof.
  intros a n d. unfold probeStartsFrom.
  rewrite seq_S, flat_map_app. cbn. reflexivity.
Qed.

Lemma waitingTrace_probeStarts :
  forall hco outs a,
    filter isProbeStart (waitingTrace hco a outs) =
    probeStartsFrom a (List.length outs) (Timeout hco).
Proof.
  intros hco. induction outs as [| o outs IH]; intros a.
  - reflexivity.
  - cbn [waitingTrace List.length app filter isProbeStart isWithTimeout
         isPing orb].
    rewrite filter_app, filter_reportOf by reflexivity.
    rewrite IH. reflexivity.
Qed.

Lemma filter_releases :
  forall p ds,
    (forall d, isRelease d = true -> p d = false) ->
    Forall (fun d => isRelease d = true) ds ->
    filter p ds = [].
Proof.
  intros p ds Hp H. induction H as [| d ds Hd _ IH]; cbn.
  - reflexivity.
  - rewrite (Hp d Hd). exact IH.
Qed.

Lemma release_not_probeStart :
  forall d, isRelease d = true -> isProbeStart d = false.
Proof. intros []; cbn; congruence. Qed.

Lemma exitFrame_releases :
  forall f x,
    Forall (fun d => isRelease d = true) (deferred f) ->
    Forall (fun d => isRelease d = true) (deferred (exitFrame f x)).
Proof.
  intros f [| | err] H; cbn; [exact H | |];
    (constructor; [reflexivity | exact H]).
Qed.

Lemma map_Tick_inj :
  forall l1 l2, map Tick l1 = map Tick l2 -> l1 = l2.
Proof.
  induction l1 as [| a l1 IH]; intros [| b l2] H; cbn in H;
    try discriminate; [reflexivity |].
  injection H as -> H. rewrite (IH _ H). reflexivity.
Qed.

(** The runs of [healthCheck], whole: every run that is waiting or has
    returned consists of the ticks answered in the loop and, when it has
    returned, of the event that ended it; its trace is the making of the
    ticker, the calls of those passes, the calls of the last pass and the
    deferred releases. *)
Lemma healthCheck_run_shape :
  forall c connID events tr o f',
    healthCheck c connID events = (tr, o) ->
    outcomeFrame o = Some f' ->
    exists outs f last releases,
      healthCheck c connID (map Tick outs) =
        (NewTicker (Interval (HealthChecks (opts c)))
           :: waitingTrace (HealthChecks (opts c)) 0 outs, Waiting f) /\
      contexts f = List.length outs /\
      Forall (fun o => isSentinel o = false) outs /\
      tr = NewTicker (Interval (HealthChecks (opts c)))
             :: waitingTrace (HealthChecks (opts c)) 0 outs
             ++ last ++ releases /\
      Forall (fun d => isRelease d = true) releases /\
      ((o = Waiting f /\ f' = f /\ events = map Tick outs /\
        last = [] /\ releases = []) \/
       (exists x post,
           o = Returned f' /\ f' = exitFrame f x /\
           events = map Tick outs ++ exitEvent x :: post /\
           exitOn (HealthChecks (opts c)) f x /\
           last = exitCalls (HealthChecks (opts c)) f x /\
           releases = deferred f')).
Proof.
  intros c connID events tr o f' H Ho.
  assert (Hwait : forall evs t f,
             healthCheck c connID evs = (t, Waiting f) ->
             exists outs,
               evs = map Tick outs /\
               Forall (fun o => isSentinel o = false) outs /\
               t = NewTicker (Interval (HealthChecks (opts c)))
                     :: waitingTrace (HealthChecks (opts c)) 0 outs /\
               contexts f = List.length outs).
  { intros evs t f Hw.
    pose proof (healthCheck_waiting_shape _ _ _ _ _ Hw)
      as (_ & _ & _ & _ & Hc & _).
    apply healthCheck_waiting_inv in Hw.
    destruct Hw as (_ & t1 & Hl & ->).
    destruct (loop_waiting_events _ _ _ _ _ Hl) as (outs & -> & Hs).
    exists outs. rewrite (loop_waiting_exact _ _ _ _ _ Hl).
    rewrite length_map in Hc. auto. }
  destruct o as [f | f |]; cbn in Ho; [| | discriminate];
    injection Ho as ->.
  - destruct (Hwait _ _ _ H) as (outs & -> & Hs & -> & Hc).
    exists outs, f', [], [].
    rewrite !app_nil_r.
    repeat split; auto. left. repeat split; reflexivity.
  - apply healthCheck_returned_exit in H.
    destruct H as (outs0 & x & post & t & f & -> & Hw & Hon & -> & ->).
    pose proof (healthCheck_waiting_quiet _ _ _ _ _ Hw) as (Hrel & _).
    destruct (Hwait _ _ _ Hw) as (outs & Hev & Hs & -> & Hc).
    apply map_Tick_inj in Hev. subst outs0.
    exists outs, f, (exitCalls (HealthChecks (opts c)) f x),
      (deferred (exitFrame f x)).
    split; [exact Hw |].
    split; [exact Hc |].
    split; [exact Hs |].
    split; [reflexivity |].
    split; [apply exitFrame_releases; exact Hrel |].
    right. exists x, post. repeat split; auto.
Qed.

Lemma count_filter_sub :
  forall p q t,
    (forall d, p d = true -> q d = true) ->
    count p (filter q t) = count p t.
Proof.
  intros p q t Hpq. unfold count.
  induction t as [| d t IH]; [reflexivity |].
  cbn [filter]. destruct (q d) eqn:Eq.
  - cbn [filter]. destruct (p d); cbn [List.length]; rewrite IH; reflexivity.
  - destruct (p d) eqn:Ep; [| exact IH].
    rewrite (Hpq d Ep) in Eq. discriminate.
Qed.

(** X5.  Probes are made one at a time and each on a context of its own: in
    every run, the makings of contexts and the pings are, in order,
    context 0 made with the configured [Timeout] and pinged, then context
    1 made with the same timeout and pinged, and so on, as many as the
    frame counts. *)
Theorem probes_are_sequential :
  forall c connID events tr o f,
    healthCheck c connID events = (tr, o) ->
    outcomeFrame o = Some f ->
    filter isProbeStart tr =
      probeStartsFrom 0 (contexts f) (Timeout (HealthChecks (opts c))) /\
    count isPing tr = contexts f /\
    count isWithTimeout tr = contexts f.
Proof.
  intros c connID events tr o f H Ho.
  assert (Hfilter : filter isProbeStart tr =
                    probeStartsFrom 0 (contexts f)
                      (Timeout (HealthChecks (opts c)))).
  { destruct (healthCheck_run_shape _ _ _ _ _ _ H Ho)
      as (outs & f0 & last & rel & _ & Hc & _ & -> & Hrel & Hcase).
    cbn [filter isProbeStart isWithTimeout isPing orb].
    rewrite !filter_app, waitingTrace_probeStarts.
    rewrite (filter_releases _ _ release_not_probeStart Hrel), app_nil_r.
    destruct Hcase as [(_ & -> & _ & -> & _) |
                       (x & post & _ & -> & _ & _ & -> & _)].
    - rewrite Hc, app_nil_r. reflexivity.
    - destruct x as [| | err];
        cbn [exitCalls exitFrame probing withFailures contexts probeCalls
             filter isProbeStart isWithTimeout isPing orb app reportCall
             closeCall isConnectionError].
      + rewrite Hc, app_nil_r. reflexivity.
      + rewrite Hc, probeStartsFrom_S. reflexivity.
      + rewrite Hc, probeStartsFrom_S. reflexivity. }
  split; [exact Hfilter |].
  assert (Hstarts : forall a n d,
             count isPing (probeStartsFrom a n d) = n /\
             count isWithTimeout (probeStartsFrom a n d) = n).
  { intros a n d. induction n as [| n [IH1 IH2]]; [split; reflexivity |].
    rewrite probeStartsFrom_S, !count_app, IH1, IH2.
    split; cbn; lia. }
  split.
  - rewrite <- (count_filter_sub isPing isProbeStart), Hfilter;
      [apply Hstarts |].
    intros []; cbn; congruence.
  - rewrite <- (count_filter_sub isWithTimeout isProbeStart), Hfilter;
      [apply Hstarts |].
    intros []; cbn; congruence.
Qed.

Lemma probes_are_sequential_witness :
  let c := mkConnection
             (mkConnectionOptions (mkHealthCheckOptions Second 250 5))
             false false in
  filter isProbeStart
    (fst (healthCheck c 1 [Tick None; Tick (Some (NewError "timeout"));
                           Quit])) =
  [WithTimeout 0 250; Ping 0; WithTimeout 1 250; Ping 1].
Proof.
  cbv zeta.
  exact (proj1 (probes_are_sequential
                  (mkConnection
                     (mkConnectionOptions (mkHealthCheckOptions Second 250 5))
                     false false)
                  1 [Tick None; Tick (Some (NewError "timeout")); Quit]
                  _ _ _ eq_refl eq_refl)).
Defined.

(** ** healthCheck: reports, releases and the counter *)

Lemma waitingTrace_reports :
  forall hco outs a,
    Forall (fun o => isSentinel o = false) outs ->
    Forall (fun d => isFailureReport d = true) (waitingTrace hco a outs) /\
    count isConnectionError (waitingTrace hco a outs) =
      List.length (filter isFailure outs) /\
    count isConnClose (waitingTrace hco a outs) = 0%nat /\
    count isWithTimeout (waitingTrace hco a outs) = List.length outs /\
    Forall (fun d => isProbeCall d = true) (waitingTrace hco a outs).
Proof.
  intros hco. induction outs as [| o outs IH]; intros a Hs.
  - cbn. repeat split; constructor.
  - inversion Hs as [| ? ? Ho Hs']; subst.
    destruct (IH (S a) Hs') as (IH1 & IH2 & IH3 & IH4 & IH5).
    cbn [waitingTrace app].
    destruct o as [err |]; cbn [reportOf app isFailure filter].
    + cbn in Ho. rewrite Ho. cbn [negb filter List.length].
      repeat split.
      * constructor; [reflexivity |]. constructor; [reflexivity |].
        constructor; [| exact IH1].
        cbn. rewrite Ho. reflexivity.
      * rewrite !count_cons, IH2. reflexivity.
      * rewrite !count_cons, IH3. reflexivity.
      * rewrite !count_cons, IH4. reflexivity.
      * repeat (constructor; [reflexivity |]). exact IH5.
    + repeat split.
      * repeat (constructor; [reflexivity |]). exact IH1.
      * rewrite !count_cons, IH2. reflexivity.
      * rewrite !count_cons, IH3. reflexivity.
      * rewrite !count_cons, IH4. reflexivity.
      * repeat (constructor; [reflexivity |]). exact IH5.
Qed.

Lemma release_is_failureReport :
  forall d, isRelease d = true -> isFailureReport d = true.
Proof. intros []; cbn; congruence. Qed.

Lemma release_not_report :
  forall d, isRelease d = true -> isConnectionError d = false.
Proof. intros []; cbn; congruence. Qed.

(** X6.  What [healthCheck] reports through [connectionError] are failed
    probes and nothing else: every report comes from the site
    "healthCheck" and wraps, as "healthCheck failed: %v", an error that is
    not the sentinel; a run that is waiting has made one report for each
    failed probe; and the connection is never closed without a report. *)
Theorem reports_are_failures :
  forall c connID events tr o,
    healthCheck c connID events = (tr, o) ->
    Forall (fun d => isFailureReport d = true) tr /\
    (count isConnClose tr <= count isConnectionError tr)%nat /\
    (forall f,
        o = Waiting f ->
        exists outs,
          events = map Tick outs /\
          count isConnectionError tr = List.length (filter isFailure outs)).
Proof.
  intros c connID events tr o H.
  destruct (outcomeFrame o) as [f' |] eqn:Ho.
  - destruct (healthCheck_run_shape _ _ _ _ _ _ H Ho)
      as (outs & f0 & last & rel & _ & _ & Hs & -> & Hrel & Hcase).
    destruct (waitingTrace_reports (HealthChecks (opts c)) outs 0%nat Hs)
      as (W1 & W2 & W3 & _).
    assert (Hlast : Forall (fun d => isFailureReport d = true) last /\
                    (count isConnClose last
                     <= count isConnectionError last)%nat).
    { destruct Hcase as [(_ & _ & _ & -> & _) |
                         (x & post & _ & _ & _ & Hon & -> & _)].
      - split; [constructor | cbn; lia].
      - destruct x as [| | err]; cbn [exitCalls probeCalls app].
        + split; [constructor | cbn; lia].
        + split; [repeat constructor | cbn; lia].
        + destruct Hon as [Hne _]. split; [| cbn; lia].
          repeat (constructor; [reflexivity |]).
          constructor; [| repeat constructor].
          cbn. rewrite (error_eqb_sentinel_false err Hne). reflexivity. }
    destruct Hlast as (L1 & L2).
    split; [| split].
    + constructor; [reflexivity |].
      apply Forall_app. split; [exact W1 |].
      apply Forall_app. split; [exact L1 |].
      eapply Forall_impl; [| exact Hrel]. exact release_is_failureReport.
    + rewrite !count_cons, !count_app, W3.
      rewrite (count_releases isConnClose rel release_not_close Hrel).
      cbn. lia.
    + intros f ->.
      destruct Hcase as [(_ & _ & -> & -> & ->) |
                         (x & post & [=] & _)].
      exists outs. split; [reflexivity |].
      rewrite !count_cons, !count_app, W2. cbn. lia.
  - destruct o as [f | f |]; try discriminate.
    apply healthCheck_panicked_inv in H. destruct H as (_ & ->).
    split; [repeat constructor |].
    split; [cbn; lia |].
    intros f [=].
Qed.

Lemma rev_seq_S :
  forall n, rev (seq 0 (S n)) = n :: rev (seq 0 n).
Proof.
  intros n. rewrite seq_S, rev_app_distr. reflexivity.
Qed.

(** X7.  What [healthCheck] has deferred runs when it returns, last deferred
    first: a run that has returned ends with the cancels of all the
    contexts it made, the latest first, and then the stop of the ticker;
    no cancel and no stop come before; no context is left uncancelled. *)
Theorem cancels_run_at_return :
  forall c connID events tr f,
    healthCheck c connID events = (tr, Returned f) ->
    exists body,
      tr = body ++ map Cancel (rev (seq 0 (contexts f))) ++ [TickerStop] /\
      count isRelease body = 0%nat /\
      count isWithTimeout body = contexts f /\
      unreleased tr = [].
Proof.
  intros c connID events tr f' H.
  pose proof (healthCheck_returned_releases _ _ _ _ _ H) as Hu.
  destruct (healthCheck_run_shape _ _ _ _ _ _ H eq_refl)
    as (outs & f & last & rel & Hw & Hc & Hs & -> & _ & Hcase).
  destruct Hcase as [([=] & _) | (x & post & _ & -> & _ & _ & -> & ->)].
  destruct (waitingTrace_reports (HealthChecks (opts c)) outs 0%nat Hs)
    as (_ & _ & _ & W4 & W5).
  destruct (Forall_probeCall_count _ W5) as (_ & Wr & _).
  pose proof (healthCheck_waiting_shape _ _ _ _ _ Hw)
    as (_ & _ & _ & _ & _ & Hd & _).
  rewrite length_map in Hd. rewrite <- Hc in Hd.
  exists (NewTicker (Interval (HealthChecks (opts c)))
            :: waitingTrace (HealthChecks (opts c)) 0 outs
            ++ exitCalls (HealthChecks (opts c)) f x).
  split; [| split; [| split; [| exact Hu]]].
  - cbn [app]. rewrite <- app_assoc. do 2 f_equal.
    destruct x as [| | err]; cbn [exitFrame probing withFailures deferred
                                   contexts];
      rewrite Hd; [reflexivity | |]; rewrite rev_seq_S; reflexivity.
  - rewrite count_cons, count_app, Wr.
    destruct x; reflexivity.
  - rewrite count_cons, count_app, W4, <- Hc.
    destruct x; cbn; lia.
Qed.

Lemma cancels_run_at_return_witness :
  let c := mkConnection
             (mkConnectionOptions (mkHealthCheckOptions Second Second 5))
             false false in
  exists body,
    fst (healthCheck c 1 [Tick None; Tick None; Quit]) =
      body ++ [Cancel 1; Cancel 0; TickerStop] /\
    count isRelease body = 0%nat.
Proof.
  cbv zeta.
  destruct (cancels_run_at_return
              (mkConnection
                 (mkConnectionOptions (mkHealthCheckOptions Second Second 5))
                 false false)
              1 [Tick None; Tick None; Quit] _ _ eq_refl)
    as (body & Ht & Hr & _).
  exists body. split; [exact Ht | exact Hr].
Defined.

(** X8.  The counter stays within bounds: in every run it is at least 0 and at
    most [FailuresToClose] (at most 1 when that is not positive), so that
    it never wraps around; and while the goroutine waits it is below
    [FailuresToClose] unless it is 0. *)
Theorem counter_is_bounded :
  forall c connID events tr o f,
    isInt (FailuresToClose (HealthChecks (opts c))) ->
    healthCheck c connID events = (tr, o) ->
    outcomeFrame o = Some f ->
    0 <= consecutiveFailures f
      <= Z.max 1 (FailuresToClose (HealthChecks (opts c))) /\
    isInt (consecutiveFailures f) /\
    (o = Waiting f ->
     consecutiveFailures f = 0 \/
     consecutiveFailures f < FailuresToClose (HealthChecks (opts c))).
Proof.
  intros c connID events tr o f' Hint H Ho.
  destruct (healthCheck_run_shape _ _ _ _ _ _ H Ho)
    as (outs & f & last & rel & Hw & _ & _ & _ & _ & Hcase).
  destruct (healthCheck_waiting_counter c connID Hint outs _ f Hw)
    as (_ & Hr & Hb).
  assert (Hmax : FailuresToClose (HealthChecks (opts c)) <= maxInt)
    by (destruct Hint; assumption).
  assert (Hmin : minInt <= 0) by (unfold minInt, intSize; lia).
  assert (Hone : 1 <= maxInt) by (unfold maxInt, intSize; lia).
  destruct Hcase as [(-> & -> & _) | (x & post & -> & -> & _ & Hon & _)].
  - split; [lia |]. split; [unfold isInt; lia |]. intros _. exact Hb.
  - destruct x as [| | err]; cbn [exitFrame probing withFailures
                                   consecutiveFailures].
    + split; [lia |]. split; [unfold isInt; lia |]. intros [=].
    + split; [lia |]. split; [unfold isInt; lia |]. intros [=].
    + destruct Hon as [Hne _].
      destruct (healthCheck_next_failure c connID Hint outs _ f err Hw Hne)
        as (-> & _).
      split; [lia |]. split; [unfold isInt; lia |]. intros [=].
Qed.

Lemma counter_is_bounded_witness :
  let c := mkConnection
             (mkConnectionOptions (mkHealthCheckOptions Second Second 2))
             false false in
  match snd (healthCheck c 1 [Tick (Some (NewError "a"));
                              Tick (Some (NewError "b"))]) with
  | Returned f => 0 <= consecutiveFailures f <= 2
  | _ => False
  end.
Proof.
  cbv zeta.
  assert (Hint : isInt 2) by (unfold isInt, minInt, maxInt, intSize; lia).
  exact (proj1 (counter_is_bounded
                  (mkConnection
                     (mkConnectionOptions
                        (mkHealthCheckOptions Second Second 2))
                     false false)
                  1 [Tick (Some (NewError "a")); Tick (Some (NewError "b"))]
                  _ _ _ Hint eq_refl eq_refl)).
Defined.

Lemma reports_are_failures_witness :
  let c := mkConnection
             (mkConnectionOptions (mkHealthCheckOptions Second Second 5))
             false false in
  count isConnectionError
    (fst (healthCheck c 1 [Tick (Some (NewError "timeout")); Tick None;
                           Tick (Some (NewError "reset"))])) = 2%nat.
Proof.
  cbv zeta.
  destruct (reports_are_failures
              (mkConnection
                 (mkConnectionOptions (mkHealthCheckOptions Second Second 5))
                 false false)
              1 [Tick (Some (NewError "timeout")); Tick None;
                 Tick (Some (NewError "reset"))] _ _ eq_refl)
    as (_ & _ & Hw).
  destruct (Hw _ eq_refl) as (outs & Hev & Hc).
  change [Tick (Some (NewError "timeout")); Tick None;
          Tick (Some (NewError "reset"))]
    with (map Tick [Some (NewError "timeout"); None;
                    Some (NewError "reset")]) in Hev.
  apply map_Tick_inj in Hev. subst outs. exact Hc.
Defined.

(** ** healthCheck: a run of failures *)

(** A failure below the threshold is reported and counted, and the loop
    goes on. *)
Lemma healthCheck_failure_continues :
  forall c connID pre t f err,
    isInt (FailuresToClose (HealthChecks (opts c))) ->
    healthCheck c connID pre = (t, Waiting f) ->
    err <> ErrInvalidConnectionState ->
    consecutiveFailures f + 1 < FailuresToClose (HealthChecks (opts c)) ->
    healthCheck c connID (pre ++ [failTick err]) =
    (t ++ probeCalls (HealthChecks (opts c)) f ++ [reportCall err],
     Waiting (withFailures (consecutiveFailures f + 1) (probing f))).
Proof.
  intros c connID pre t f err Hint Hw Hne Hlt.
  pose proof Hw as Hw'.
  apply healthCheck_waiting_inv in Hw'.
  destruct Hw' as (_ & t1 & Hl & _).
  destruct (loop_waiting_events _ _ _ _ _ Hl) as (outs & -> & _).
  destruct (healthCheck_next_failure c connID Hint outs t f err Hw Hne)
    as (Hwrap & _).
  apply (healthCheck_continue c connID _ _ t f); [exact Hw |].
  rewrite (iteration_failure _ f err Hne). cbv zeta. rewrite Hwrap.
  destruct (Z.leb_spec (FailuresToClose (HealthChecks (opts c)))
              (consecutiveFailures f + 1)); [lia | reflexivity].
Qed.

(** From a waiting run, the failures that are missing to the threshold,
    one after the other: all but the last keep the loop going, the last
    closes. *)
Lemma healthCheck_failures_to_threshold :
  forall c connID errs pre t f last post,
    isInt (FailuresToClose (HealthChecks (opts c))) ->
    healthCheck c connID pre = (t, Waiting f) ->
    Forall (fun e => e <> ErrInvalidConnectionState) errs ->
    last <> ErrInvalidConnectionState ->
    consecutiveFailures f + Z.of_nat (List.length errs) + 1 =
      FailuresToClose (HealthChecks (opts c)) ->
    exists t' f',
      healthCheck c connID (pre ++ map failTick errs) = (t', Waiting f') /\
      consecutiveFailures f' =
        consecutiveFailures f + Z.of_nat (List.length errs) /\
      healthCheck c connID
        (pre ++ map failTick errs ++ failTick last :: post) =
      (t' ++ probeCalls (HealthChecks (opts c)) f'
          ++ [reportCall last; closeCall last] ++ deferred (probing f'),
       Returned
         (withFailures (FailuresToClose (HealthChecks (opts c)))
            (probing f'))).
Proof.
  intros c connID.
  induction errs as [| e errs IH];
    intros pre t f last post Hint Hw Hall Hlast Hsum.
  - cbn [map List.length app] in *. rewrite app_nil_r.
    exists t, f. split; [exact Hw |]. split; [lia |].
    pose proof Hw as Hw'.
    apply healthCheck_waiting_inv in Hw'.
    destruct Hw' as (_ & t1 & Hl & _).
    destruct (loop_waiting_events _ _ _ _ _ Hl) as (outs & -> & _).
    destruct (healthCheck_next_failure c connID Hint outs t f last Hw Hlast)
      as (Hwrap & _).
    assert (Hon : exitOn (HealthChecks (opts c)) f (ByThreshold last)).
    { cbn [exitOn]. rewrite Hwrap. split; [assumption | lia]. }
    pose proof (healthCheck_exit_at c connID (map Tick outs)
                  (ByThreshold last) post t f Hw Hon) as He.
    cbn [exitEvent exitCalls exitFrame] in He. rewrite Hwrap in He.
    unfold failTick. rewrite He. rewrite <- app_assoc.
    replace (consecutiveFailures f + 1)
      with (FailuresToClose (HealthChecks (opts c))) by lia.
    reflexivity.
  - inversion Hall as [| ? ? He Hall']; subst.
    cbn [List.length] in Hsum.
    assert (Hlt : consecutiveFailures f + 1
                  < FailuresToClose (HealthChecks (opts c))) by lia.
    pose proof (healthCheck_failure_continues c connID pre t f e
                  Hint Hw He Hlt) as Hstep.
    destruct (IH (pre ++ [failTick e]) _ _ last post Hint Hstep Hall' Hlast)
      as (t' & f' & Hw' & Hcf & Hclose).
    { cbn [withFailures consecutiveFailures]. lia. }
    cbn [withFailures consecutiveFailures] in Hcf.
    exists t', f'.
    cbn [map]. rewrite <- !app_assoc in Hw', Hclose.
    cbn [app] in Hw', Hclose.
    split; [exact Hw' |].
    split; [cbn [List.length]; lia |].
    exact Hclose.
Qed.

(** X9.  From wherever the loop is waiting, as many failures in a row as are
    missing to [FailuresToClose] close the connection, and no fewer do:
    all but the last leave the goroutine waiting with nothing closed, and
    the last is the one the close names; the counter then is
    [FailuresToClose]. *)
Theorem failure_run_closes :
  forall c connID errs pre t f last post,
    isInt (FailuresToClose (HealthChecks (opts c))) ->
    healthCheck c connID pre = (t, Waiting f) ->
    Forall (fun e => e <> ErrInvalidConnectionState) errs ->
    last <> ErrInvalidConnectionState ->
    consecutiveFailures f + Z.of_nat (List.length errs) + 1 =
      FailuresToClose (HealthChecks (opts c)) ->
    (exists t' f',
        healthCheck c connID (pre ++ map failTick errs) = (t', Waiting f') /\
        count isConnClose t' = 0%nat) /\
    (exists tr f',
        healthCheck c connID
          (pre ++ map failTick errs ++ failTick last :: post) =
          (tr, Returned f') /\
        consecutiveFailures f' = FailuresToClose (HealthChecks (opts c)) /\
        In (closeCall last) tr /\
        count isConnClose tr = 1%nat).
Proof.
  intros c connID errs pre t f last post Hint Hw Hall Hlast Hsum.
  destruct (healthCheck_failures_to_threshold c connID errs pre t f last post
              Hint Hw Hall Hlast Hsum) as (t' & f' & Hw' & _ & Hclose).
  destruct (healthCheck_waiting_quiet _ _ _ _ _ Hw') as (Hrel & Hnc).
  split.
  - exists t', f'. split; [exact Hw' | exact Hnc].
  - eexists _, _. split; [exact Hclose |].
    split; [reflexivity |].
    split.
    + apply in_or_app. right. apply in_or_app. right.
      right. left. reflexivity.
    + rewrite !count_app, Hnc. cbn [probing deferred].
      rewrite (count_releases isConnClose (Cancel (contexts f') :: deferred f')
                 release_not_close).
      * reflexivity.
      * constructor; [reflexivity | exact Hrel].
Qed.

Lemma failure_run_closes_witness :
  let c := mkConnection
             (mkConnectionOptions (mkHealthCheckOptions Second Second 3))
             false false in
  count isConnClose
    (fst (healthCheck c 1
            ([Tick (Some (NewError "a")); Tick None]
             ++ map failTick [NewError "b"; NewError "c"]
             ++ failTick (NewError "d") :: [Tick None]))) = 1%nat.
Proof.
  cbv zeta.
  assert (Hint : isInt 3) by (unfold isInt, minInt, maxInt, intSize; lia).
  destruct (failure_run_closes
              (mkConnection
                 (mkConnectionOptions (mkHealthCheckOptions Second Second 3))
                 false false)
              1 [NewError "b"; NewError "c"]
              [Tick (Some (NewError "a")); Tick None] _ _
              (NewError "d") [Tick None] Hint eq_refl)
    as (_ & tr & f' & Hrun & _ & _ & Hc).
  - repeat constructor; discriminate.
  - discriminate.
  - reflexivity.
  - rewrite Hrun. exact Hc.
Defined.

(** X10.  With the defaults resolved in the stored options, a threshold left at
    zero means five: four failures in a row from the start leave the
    goroutine waiting, the fifth closes the connection. *)
Theorem resolved_zero_threshold_is_five :
  forall c connID e1 e2 e3 e4 e5 post,
    0 < Interval (HealthChecks (opts c)) ->
    FailuresToClose (HealthChecks (opts c)) = 0 ->
    Forall (fun e => e <> ErrInvalidConnectionState) [e1; e2; e3; e4; e5] ->
    let c' := withHealthChecks c (withDefaults (HealthChecks (opts c))) in
    (exists t f,
        healthCheck c' connID (map failTick [e1; e2; e3; e4]) =
          (t, Waiting f) /\
        consecutiveFailures f = 4 /\
        count isConnClose t = 0%nat) /\
    (exists tr f,
        healthCheck c' connID (map failTick [e1; e2; e3; e4; e5] ++ post) =
          (tr, Returned f) /\
        consecutiveFailures f = 5 /\
        In (closeCall e5) tr).
Proof.
  intros c connID e1 e2 e3 e4 e5 post Hi Hzero Hall c'.
  assert (Hn : FailuresToClose (HealthChecks (opts c')) = 5).
  { cbn. rewrite withDefaults_FailuresToClose, Hzero. reflexivity. }
  assert (Hi' : 0 < Interval (HealthChecks (opts c'))).
  { cbn. rewrite withDefaults_Interval. exact Hi. }
  assert (Hint : isInt (FailuresToClose (HealthChecks (opts c')))).
  { rewrite Hn. unfold isInt, minInt, maxInt, intSize. lia. }
  assert (Hw0 : healthCheck c' connID [] =
                ([NewTicker (Interval (HealthChecks (opts c')))],
                 Waiting frame1)).
  { apply (healthCheck_waiting_intro c' connID [] [] frame1 Hi').
    reflexivity. }
  inversion Hall as [| ? ? H1 Hall1]; subst.
  inversion Hall1 as [| ? ? H2 Hall2]; subst.
  inversion Hall2 as [| ? ? H3 Hall3]; subst.
  inversion Hall3 as [| ? ? H4 Hall4]; subst.
  inversion Hall4 as [| ? ? H5 _]; subst.
  destruct (healthCheck_failures_to_threshold c' connID [e1; e2; e3; e4]
              [] _ frame1 e5 post Hint Hw0)
    as (t' & f' & Hw' & Hcf & Hclose).
  { repeat constructor; assumption. }
  { exact H5. }
  { rewrite Hn. reflexivity. }
  cbn [app] in Hw', Hclose.
  destruct (healthCheck_waiting_quiet _ _ _ _ _ Hw') as (_ & Hnc).
  split.
  - exists t', f'. split; [exact Hw' |]. split; [exact Hcf | exact Hnc].
  - eexists _, _. split; [exact Hclose |].
    split; [exact Hn |].
    apply in_or_app. right. apply in_or_app. right.
    right. left. reflexivity.
Qed.

Lemma resolved_zero_threshold_is_five_witness :
  let c := mkConnection
             (mkConnectionOptions (mkHealthCheckOptions Second 0 0))
             false false in
  let c' := withHealthChecks c (withDefaults (HealthChecks (opts c))) in
  exists tr f,
    healthCheck c' 1
      (map failTick [NewError "a"; NewError "b"; NewError "c";
                     NewError "d"; NewError "e"] ++ [Quit]) =
      (tr, Returned f) /\
    consecutiveFailures f = 5.
Proof.
  cbv zeta.
  destruct (resolved_zero_threshold_is_five
              (mkConnection
                 (mkConnectionOptions (mkHealthCheckOptions Second 0 0))
                 false false)
              1 (NewError "a") (NewError "b") (NewError "c")
              (NewError "d") (NewError "e") [Quit])
    as (_ & tr & f & Hrun & Hcf & _).
  - reflexivity.
  - reflexivity.
  - repeat constructor; discriminate.
  - exists tr, f. split; [exact Hrun | exact Hcf].
Defined.

(** ** stophealthCheck: every state, every schedule *)

(** X12.  [stophealthCheck] in each state of the flag and of the channel.  It
    panics in one state only, the flag down on a channel that is already
    closed.  Otherwise it returns with the flag up and the options as they
    were; it logs and closes the channel exactly when it found the flag
    down, and it never reopens the channel nor opens the flag. *)
Theorem stophealthCheck_cases :
  forall c,
    (snd (stophealthCheck c) = None <->
     healthCheckStopped c = false /\ healthCheckQuit c = true) /\
    (forall c',
        snd (stophealthCheck c) = Some c' ->
        healthCheckStopped c' = true /\
        opts c' = opts c /\
        healthCheckQuit c' =
          (healthCheckQuit c || negb (healthCheckStopped c))%bool /\
        fst (stophealthCheck c) =
          (if healthCheckStopped c then [] else stopCalls)).
Proof.
  intros [o [|] [|]]; cbn.
  - split.
    + split; [intros [=] | intros [[=] _]].
    + intros c' [= <-]. cbn. repeat split.
  - split.
    + split; [intros [=] | intros [[=] _]].
    + intros c' [= <-]. cbn. repeat split.
  - split.
    + split; [intros _; split; reflexivity | reflexivity].
    + intros c' [=].
  - split.
    + split; [intros [=] | intros [_ [=]]].
    + intros c' [= <-]. cbn. repeat split.
Qed.

Lemma nth_error_setNth_eq :
  forall (A : Type) (l : list A) i x y,
    nth_error l i = Some y ->
    nth_error (setNth i x l) i = Some x.
Proof.
  intros A. induction l as [| z l IH]; intros i x y H.
  - destruct i; discriminate.
  - destruct i as [| i]; cbn in *; [reflexivity |].
    eapply IH. exact H.
Qed.

Lemma nth_error_setNth_neq :
  forall (A : Type) (l : list A) i j x,
    i <> j ->
    nth_error (setNth j x l) i = nth_error l i.
Proof.
  intros A. induction l as [| z l IH]; intros i j x Hne.
  - reflexivity.
  - destruct j as [| j]; destruct i as [| i]; cbn; try reflexivity.
    + contradiction.
    + apply IH. intros ->. apply Hne. reflexivity.
Qed.

(** A caller that is scheduled as often as it has steps left has returned
    at the end of the schedule, whatever the other callers do in between. *)
Lemma runSchedule_caller_returns :
  forall o n sched ps w i p,
    poolInvariant o n ps w ->
    nth_error ps i = Some p ->
    (stepsLeft p <= count_occ Nat.eq_dec sched i)%nat ->
    nth_error (fst (runSchedule sched ps w)) i = Some AtEnd.
Proof.
  intros o n. induction sched as [| j sched IH]; intros ps w i p Hinv Hn Hc.
  - cbn in Hc. destruct p; cbn in Hc; try lia. exact Hn.
  - cbn [runSchedule].
    destruct Hinv as (Hlen & Hpan & Hrest).
    rewrite Hpan.
    assert (Hinv : poolInvariant o n ps w) by (split; [| split]; assumption).
    destruct (nth_error ps j) as [q |] eqn:Hj.
    + pose proof (stopStep_invariant o n ps w j q Hinv Hj) as Hstep.
      pose proof (stopStep_progress q w) as Hprog.
      destruct (stopStep q w) as [q' w'] eqn:Es. cbn [fst snd] in *.
      destruct (Nat.eq_dec j i) as [-> | Hne].
      * rewrite Hn in Hj. injection Hj as <-.
        rewrite count_occ_cons_eq in Hc by reflexivity.
        apply (IH _ _ i q' Hstep).
        -- eapply nth_error_setNth_eq. exact Hn.
        -- destruct p.
           ++ specialize (Hprog ltac:(discriminate)). lia.
           ++ specialize (Hprog ltac:(discriminate)). lia.
           ++ specialize (Hprog ltac:(discriminate)). lia.
           ++ cbn in Es. injection Es as <- _. cbn. lia.
      * rewrite count_occ_cons_neq in Hc by exact Hne.
        apply (IH _ _ i p Hstep); [| exact Hc].
        rewrite nth_error_setNth_neq by (intros ->; apply Hne; reflexivity).
        exact Hn.
    + destruct (Nat.eq_dec j i) as [-> | Hne].
      * rewrite Hn in Hj. discriminate.
      * rewrite count_occ_cons_neq in Hc by exact Hne.
        apply (IH _ _ i p Hinv Hn Hc).
Qed.

Lemma Forall_of_nth_error :
  forall (A : Type) (P : A -> Prop) (l : list A),
    (forall i, (i < List.length l)%nat ->
               exists x, nth_error l i = Some x /\ P x) ->
    Forall P l.
Proof.
  intros A P. induction l as [| y l IH]; intros H.
  - constructor.
  - constructor.
    + destruct (H 0%nat ltac:(cbn; lia)) as (x & [= ->] & Hx). exact Hx.
    + apply IH. intros i Hi.
      destruct (H (S i) ltac:(cbn; lia)) as (x & Hn & Hx).
      exists x. split; assumption.
Qed.

(** X13.  No caller of [stophealthCheck] waits for another: under every
    schedule, a caller that has been given three steps has returned; and
    once every one of [n >= 1] concurrent callers has been given three
    steps, all have returned, the log and the close of the quit channel
    have happened once each, in that order, and nobody panicked. *)
Theorem stophealthCheck_callers_return :
  forall c n sched,
    healthCheckStopped c = false ->
    healthCheckQuit c = false ->
    let ps := fst (runSchedule sched (repeat AtSwap n) (world0 c)) in
    let w := snd (runSchedule sched (repeat AtSwap n) (world0 c)) in
    (forall i,
        (i < n)%nat ->
        (3 <= count_occ Nat.eq_dec sched i)%nat ->
        nth_error ps i = Some AtEnd) /\
    ((1 <= n)%nat ->
     (forall i, (i < n)%nat -> (3 <= count_occ Nat.eq_dec sched i)%nat) ->
     Forall (fun p => p = AtEnd) ps /\
     out w = stopCalls /\
     conn w = stoppedConnection c /\
     panicked w = false).
Proof.
  intros c n sched Hs Hq. cbv zeta.
  pose proof (poolInvariant_start c n Hs Hq) as Hinv0.
  pose proof (runSchedule_invariant (opts c) n sched _ _ Hinv0) as Hinv.
  assert (Hone : forall i,
             (i < n)%nat ->
             (3 <= count_occ Nat.eq_dec sched i)%nat ->
             nth_error (fst (runSchedule sched (repeat AtSwap n) (world0 c)))
               i = Some AtEnd).
  { intros i Hi Hc.
    apply (runSchedule_caller_returns (opts c) n sched _ _ i AtSwap Hinv0).
    - rewrite nth_error_repeat by exact Hi. reflexivity.
    - exact Hc. }
  split; [exact Hone |].
  intros Hn Hall.
  set (ps := fst (runSchedule sched (repeat AtSwap n) (world0 c))) in *.
  set (w := snd (runSchedule sched (repeat AtSwap n) (world0 c))) in *.
  assert (Hend : Forall (fun p => p = AtEnd) ps).
  { apply Forall_of_nth_error. intros i Hi.
    destruct Hinv as (Hlen & _). rewrite Hlen in Hi.
    exists AtEnd. split; [apply Hone; auto | reflexivity]. }
  destruct (poolInvariant_out _ _ _ _ Hinv) as (_ & _ & Hout).
  destruct (Hout Hn Hend) as (Ho & Hst & Hqt).
  destruct Hinv as (_ & Hpan & Hopts & _).
  split; [exact Hend |].
  split; [exact Ho |].
  split; [| exact Hpan].
  unfold stoppedConnection, setQuitClosed, setStopped. cbn.
  destruct (conn w) as [o s q]. cbn in *. subst. reflexivity.
Qed.

Lemma stophealthCheck_callers_return_witness :
  let c := mkConnection
             (mkConnectionOptions (mkHealthCheckOptions Second Second 5))
             false false in
  out (snd (runSchedule [1; 0; 1; 0; 0; 1]%nat (repeat AtSwap 2)
              (world0 c))) = stopCalls.
Proof.
  cbv zeta.
  destruct (stophealthCheck_callers_return
              (mkConnection
                 (mkConnectionOptions (mkHealthCheckOptions Second Second 5))
                 false false)
              2%nat [1; 0; 1; 0; 0; 1]%nat eq_refl eq_refl)
    as (_ & Hall).
  destruct Hall as (_ & Ho & _).
  - lia.
  - intros [| [| i]] Hi; cbn; lia.
  - exact Ho.
Defined.

(** X14.  Under every schedule of concurrent callers the log comes before the
    close of the quit channel and each happens at most once: what has been
    called so far is a prefix of the two calls of one [stophealthCheck];
    the channel is closed exactly when both have been made, and the stored
    options are never touched. *)
Theorem stophealthCheck_log_then_close :
  forall c n sched,
    healthCheckStopped c = false ->
    healthCheckQuit c = false ->
    let w := snd (runSchedule sched (repeat AtSwap n) (world0 c)) in
    (exists rest, stopCalls = out w ++ rest) /\
    (healthCheckQuit (conn w) = true <-> out w = stopCalls) /\
    (out w <> [] -> healthCheckStopped (conn w) = true) /\
    opts (conn w) = opts c.
Proof.
  intros c n sched Hs Hq. cbv zeta.
  pose proof (runSchedule_invariant (opts c) n sched _ _
                (poolInvariant_start c n Hs Hq)) as Hinv.
  set (w := snd (runSchedule sched (repeat AtSwap n) (world0 c))) in *.
  destruct Hinv as (_ & _ & Hopts & Hph).
  split; [| split; [| split; [| exact Hopts]]].
  - destruct (healthCheckStopped (conn w)).
    + destruct Hph as [(_ & _ & -> & _) | [(_ & _ & -> & _) |
                                           (_ & _ & -> & _)]].
      * exists stopCalls. reflexivity.
      * exists [ChanClose]. reflexivity.
      * exists []. reflexivity.
    + destruct Hph as (_ & -> & _). exists stopCalls. reflexivity.
  - destruct (healthCheckStopped (conn w)).
    + destruct Hph as [(_ & _ & -> & ->) | [(_ & _ & -> & ->) |
                                            (_ & _ & -> & ->)]];
        split; try discriminate; reflexivity.
    + destruct Hph as (_ & -> & ->). split; discriminate.
  - intros Hne. destruct (healthCheckStopped (conn w)); [reflexivity |].
    destruct Hph as (_ & Ho & _). contradiction.
Qed.

Lemma stophealthCheck_log_then_close_witness :
  let c := mkConnection
             (mkConnectionOptions (mkHealthCheckOptions Second Second 5))
             false false in
  exists rest,
    stopCalls =
    out (snd (runSchedule [0; 1; 0]%nat (repeat AtSwap 2) (world0 c)))
    ++ rest.
Proof.
  cbv zeta.
  exact (proj1 (stophealthCheck_log_then_close
                  (mkConnection
                     (mkConnectionOptions
                        (mkHealthCheckOptions Second Second 5))
                     false false)
                  2%nat [0; 1; 0]%nat eq_refl eq_refl)).
Defined.

(** ** healthCheck: which connections survive *)

Lemma loop_survives_iff :
  forall hco outs k f,
    FailuresToClose hco <= maxInt ->
    Forall (fun o => isSentinel o = false) outs ->
    consecutiveFailures f = Z.of_nat k ->
    Z.of_nat k < maxInt ->
    snd (loop hco (map Tick outs) f) = false <->
    (maxStreakFrom k outs = 0%nat \/
     Z.of_nat (maxStreakFrom k outs) < FailuresToClose hco).
Proof.
  intros hco. induction outs as [| o outs IH]; intros k f Hmax Hs Hcf Hk.
  - cbn. split; auto.
  - inversion Hs as [| ? ? Ho Hs']; subst.
    cbn [map]. rewrite loop_cons.
    destruct o as [err |].
    + assert (Hne : err <> ErrInvalidConnectionState).
      { intros ->. discriminate. }
      rewrite (iteration_failure hco f err Hne). cbv zeta.
      rewrite wrapInt_id
        by (unfold isInt, minInt, maxInt, intSize in *; lia).
      cbn [maxStreakFrom]. rewrite (isFailure_some err Hne).
      destruct (Z.leb_spec (FailuresToClose hco)
                  (consecutiveFailures f + 1)) as [Hle | Hlt].
      * cbn [snd]. split; [discriminate |]. intros [H0 | Hlt]; lia.
      * specialize (IH (S k)
                      (withFailures (consecutiveFailures f + 1) (probing f))
                      Hmax Hs').
        cbn [withFailures consecutiveFailures] in IH.
        specialize (IH ltac:(lia) ltac:(lia)).
        destruct (loop hco (map Tick outs)
                    (withFailures (consecutiveFailures f + 1) (probing f)))
          as [[t2 f2] r].
        cbn [snd] in *. rewrite IH. lia.
    + rewrite iteration_success.
      cbn [maxStreakFrom isFailure].
      specialize (IH 0%nat (withFailures 0 (probing f)) Hmax Hs' eq_refl).
      specialize (IH ltac:(unfold maxInt, intSize; lia)).
      destruct (loop hco (map Tick outs) (withFailures 0 (probing f)))
        as [[t2 f2] r].
      cbn [snd] in *. exact IH.
Qed.

Lemma exitEvent_in_ticks :
  forall x outs,
    Forall (fun o => isSentinel o = false) outs ->
    In (exitEvent x) (map Tick outs) ->
    exists err, x = ByThreshold err.
Proof.
  intros x outs Hs Hin.
  apply in_map_iff in Hin. destruct Hin as (o & Heq & Ho).
  rewrite Forall_forall in Hs. specialize (Hs o Ho).
  destruct x as [| | err]; cbn in Heq.
  - discriminate.
  - injection Heq as ->. discriminate.
  - exists err. reflexivity.
Qed.

(** X11.  Which connections are closed.  When no probe answers the sentinel and
    the quit channel is not taken, the goroutine is still waiting, with
    nothing closed, exactly when the longest run of consecutive failures
    among the outcomes is shorter than [FailuresToClose] (or there is no
    failure at all); with a longer run it has returned and closed the
    connection, once. *)
Theorem closed_iff_longest_streak_reaches_threshold :
  forall c connID outs,
    0 < Interval (HealthChecks (opts c)) ->
    isInt (FailuresToClose (HealthChecks (opts c))) ->
    Forall (fun o => isSentinel o = false) outs ->
    (maxStreak outs = 0%nat \/
     Z.of_nat (maxStreak outs) < FailuresToClose (HealthChecks (opts c)) ->
     exists tr f,
       healthCheck c connID (map Tick outs) = (tr, Waiting f) /\
       count isConnClose tr = 0%nat) /\
    (maxStreak outs <> 0%nat ->
     FailuresToClose (HealthChecks (opts c)) <= Z.of_nat (maxStreak outs) ->
     exists tr f,
       healthCheck c connID (map Tick outs) = (tr, Returned f) /\
       count isConnClose tr = 1%nat).
Proof.
  intros c connID outs Hi Hint Hs.
  assert (Hmax : FailuresToClose (HealthChecks (opts c)) <= maxInt)
    by (destruct Hint; assumption).
  pose proof (loop_survives_iff (HealthChecks (opts c)) outs 0%nat frame1
                Hmax Hs eq_refl ltac:(unfold maxInt, intSize; lia)) as Hiff.
  fold (maxStreak outs) in Hiff.
  destruct (healthCheck c connID (map Tick outs)) as [tr o] eqn:H.
  pose proof H as H'. rewrite healthCheck_eq in H'.
  destruct (Z.leb_spec (Interval (HealthChecks (opts c))) 0); [lia |].
  destruct (loop (HealthChecks (opts c)) (map Tick outs) frame1)
    as [[t f] r] eqn:L.
  cbn [snd] in Hiff.
  split.
  - intros Hsurv. apply Hiff in Hsurv. subst r.
    injection H' as <- <-.
    eexists _, f. split; [reflexivity |].
    apply (healthCheck_waiting_quiet _ _ _ _ _ H).
  - intros Hne Hle.
    destruct r.
    + injection H' as Htr <-.
      exists tr, f. split; [reflexivity |].
      destruct (healthCheck_run_shape _ _ _ _ _ _ H eq_refl)
        as (outs' & f0 & last & rel & _ & _ & Hs' & Htr' & Hrel & Hcase).
      destruct Hcase as [([=] & _) |
                         (x & post & _ & _ & Hev & _ & -> & _)].
      assert (Hin : In (exitEvent x) (map Tick outs)).
      { rewrite Hev. apply in_or_app. right. left. reflexivity. }
      destruct (exitEvent_in_ticks x outs Hs Hin) as (err & ->).
      destruct (waitingTrace_reports (HealthChecks (opts c)) outs' 0%nat Hs')
        as (_ & _ & W3 & _).
      rewrite Htr'. rewrite count_cons, !count_app, W3.
      rewrite (count_releases isConnClose rel release_not_close Hrel).
      reflexivity.
    + exfalso. destruct (proj1 Hiff eq_refl); lia.
Qed.

Lemma closed_iff_longest_streak_reaches_threshold_witness :
  let c := mkConnection
             (mkConnectionOptions (mkHealthCheckOptions Second Second 3))
             false false in
  (exists tr f,
      healthCheck c 1
        (map Tick [Some (NewError "a"); Some (NewError "b"); None;
                   Some (NewError "c"); Some (NewError "d")]) =
        (tr, Waiting f) /\
      count isConnClose tr = 0%nat) /\
  (exists tr f,
      healthCheck c 1
        (map Tick [Some (NewError "a"); None; Some (NewError "b");
                   Some (NewError "c"); Some (NewError "d"); None]) =
        (tr, Returned f) /\
      count isConnClose tr = 1%nat).
Proof.
  cbv zeta.
  assert (Hint : isInt 3) by (unfold isInt, minInt, maxInt, intSize; lia).
  split.
  - apply (proj1 (closed_iff_longest_streak_reaches_threshold
                    (mkConnection
                       (mkConnectionOptions
                          (mkHealthCheckOptions Second Second 3))
                       false false)
                    1 [Some (NewError "a"); Some (NewError "b"); None;
                       Some (NewError "c"); Some (NewError "d")]
                    eq_refl Hint ltac:(repeat constructor))).
    right. cbn. lia.
  - apply (proj2 (closed_iff_longest_streak_reaches_threshold
                    (mkConnection
                       (mkConnectionOptions
                          (mkHealthCheckOptions Second Second 3))
                       false false)
                    1 [Some (NewError "a"); None; Some (NewError "b");
                       Some (NewError "c"); Some (NewError "d"); None]
                    eq_refl Hint ltac:(repeat constructor))).
    + cbn. lia.
    + cbn. lia.
Defined.
